(** * py2rocket editor extension: group paths, output interpretation,
      workflow identifiers and the build-and-push sequence.

    The JavaScript functions of the extension are embedded as Rocq
    functions.  A JavaScript string is the list of its UTF-16 code units;
    the built-in string and array methods the functions call are written
    out first, then the functions themselves, then the theorems. *)

From Stdlib Require Import String Ascii DecimalString.
From Stdlib Require Import List NArith ZArith Bool Lia.
Import ListNotations.

Set Implicit Arguments.

(** ** JavaScript strings *)

Module JS.

Definition jsstring := list N.

(** ASCII literals of the source text. *)
Definition lit (s : string) : jsstring :=
  List.map N_of_ascii (list_ascii_of_string s).

(** ASCII literals in which an apostrophe stands for a double quote. *)
Definition litq (s : string) : jsstring :=
  List.map (fun c => if (c =? 39)%N then 34%N else c) (lit s).

Definition c_slash : N := 47.
Definition c_backslash : N := 92.
Definition c_lbrace : N := 123.
Definition c_rbrace : N := 125.
Definition c_lbracket : N := 91.
Definition c_rbracket : N := 93.

Fixpoint eqb (a b : jsstring) : bool :=
  match a, b with
  | [], [] => true
  | x :: a', y :: b' => (x =? y)%N && eqb a' b'
  | _, _ => false
  end.

(** Truthiness of a string: only the empty string is falsy. *)
Definition truthy (s : jsstring) : bool :=
  match s with [] => false | _ :: _ => true end.

(** [a || b] on strings. *)
Definition or_else (a b : jsstring) : jsstring :=
  if truthy a then a else b.

(** WhiteSpace and LineTerminator code units, the set that
    [String.prototype.trim] strips and that [\s] matches. *)
Definition isWhiteSpace (c : N) : bool :=
  ((c =? 9) || (c =? 10) || (c =? 11) || (c =? 12) || (c =? 13)
   || (c =? 32) || (c =? 160) || (c =? 5760)
   || ((8192 <=? c) && (c <=? 8202))
   || (c =? 8232) || (c =? 8233) || (c =? 8239) || (c =? 8287)
   || (c =? 12288) || (c =? 65279))%N.

Fixpoint trimStart (s : jsstring) : jsstring :=
  match s with
  | [] => []
  | c :: r => if isWhiteSpace c then trimStart r else s
  end.

Definition trimEnd (s : jsstring) : jsstring := rev (trimStart (rev s)).

Definition trim (s : jsstring) : jsstring := trimEnd (trimStart s).

Fixpoint startsWith (s p : jsstring) : bool :=
  match p, s with
  | [], _ => true
  | _ :: _, [] => false
  | a :: p', b :: s' => (a =? b)%N && startsWith s' p'
  end.

Definition endsWith (s p : jsstring) : bool := startsWith (rev s) (rev p).

Fixpoint includes (s p : jsstring) : bool :=
  startsWith s p ||
  match s with
  | [] => false
  | _ :: r => includes r p
  end.

(** [s.indexOf(c)] for a one-character search string: the index of the
    first occurrence, or -1. *)
Fixpoint indexOf (s : jsstring) (c : N) : Z :=
  match s with
  | [] => -1
  | x :: r =>
      if (x =? c)%N then 0
      else let i := indexOf r c in
           if (i =? -1)%Z then -1 else (i + 1)%Z
  end.

(** [s.lastIndexOf(c)] for a one-character search string. *)
Fixpoint lastIndexOf (s : jsstring) (c : N) : Z :=
  match s with
  | [] => -1
  | x :: r =>
      let i := lastIndexOf r c in
      if (i =? -1)%Z then (if (x =? c)%N then 0 else -1)
      else (i + 1)%Z
  end.

(** [slice(start, end)] of strings and arrays: negative indices count
    from the end, and both are clamped to the length. *)
Definition clamp_index (len i : Z) : Z :=
  if (i <? 0)%Z then Z.max (len + i) 0 else Z.min i len.

Definition slice {A} (l : list A) (a b : Z) : list A :=
  let len := Z.of_nat (length l) in
  let from := clamp_index len a in
  let upto := clamp_index len b in
  firstn (Z.to_nat (upto - from)) (skipn (Z.to_nat from) l).

Definition slice_from {A} (l : list A) (a : Z) : list A :=
  slice l a (Z.of_nat (length l)).

(** [s.replace(/\\/g, '/')]. *)
Definition replace_backslashes (s : jsstring) : jsstring :=
  List.map (fun c => if (c =? c_backslash)%N then c_slash else c) s.

(** [s.split(sep)] for a one-character separator. *)
Fixpoint split (sep : N) (s : jsstring) : list jsstring :=
  match s with
  | [] => [ [] ]
  | c :: r =>
      if (c =? sep)%N then [] :: split sep r
      else match split sep r with
           | seg :: segs => (c :: seg) :: segs
           | [] => [ [c] ]
           end
  end.

(** [parts.join(sep)]. *)
Fixpoint join (sep : jsstring) (parts : list jsstring) : jsstring :=
  match parts with
  | [] => []
  | [x] => x
  | x :: rest => x ++ sep ++ join sep rest
  end.

(** [parts.filter(Boolean)] on an array of strings. *)
Definition filter_truthy (parts : list jsstring) : list jsstring :=
  List.filter truthy parts.

(** [s.replace(/c/g, rep)] for a pattern of one literal character and a
    replacement text without dollar signs. *)
Definition replaceAll (c : N) (rep : jsstring) (s : jsstring) : jsstring :=
  flat_map (fun x => if (x =? c)%N then rep else [x]) s.

End JS.

Import JS.

(** ** Group paths *)

Record GroupPathInfo := mkGroupPathInfo {
  normalized : jsstring;
  leadingSlash : bool
}.

Definition normalizeGroupPath (value : jsstring) : GroupPathInfo :=
  let trimmed := trim (or_else value []) in
  let leadingSlash := startsWith trimmed (lit "/") in
  let normalized :=
    join (lit "/")
         (filter_truthy (split c_slash (replace_backslashes trimmed))) in
  mkGroupPathInfo normalized leadingSlash.

Definition splitGroupPath (value : jsstring) : list jsstring :=
  let normalized := normalized (normalizeGroupPath value) in
  if negb (truthy normalized) then []
  else split c_slash normalized.

(** The segments a raw value is cut into, which [normalizeGroupPath]
    computes before joining them. *)
Definition segments (value : jsstring) : list jsstring :=
  filter_truthy (split c_slash (replace_backslashes (trim value))).

Definition isSafeGroupParts (parts : list jsstring) : bool :=
  forallb (fun part => truthy part
                       && negb (JS.eqb part (lit "."))
                       && negb (JS.eqb part (lit "..")))
          parts.

Definition buildFullGroupName (baseGroupName input : jsstring) : jsstring :=
  let baseInfo := normalizeGroupPath baseGroupName in
  let inputInfo := normalizeGroupPath input in
  if negb (truthy (normalized inputInfo)) then
    if leadingSlash baseInfo then lit "/" ++ normalized baseInfo
    else normalized baseInfo
  else
    let full :=
      if truthy (normalized baseInfo)
         && negb (startsWith (normalized inputInfo) (normalized baseInfo))
      then join (lit "/")
                (filter_truthy [normalized baseInfo; normalized inputInfo])
      else normalized inputInfo in
    let leadingSlash := leadingSlash baseInfo || leadingSlash inputInfo in
    if leadingSlash then lit "/" ++ full else full.

(** ** Node's [path.join], POSIX flavour

    [path.join] concatenates its non-empty arguments with the separator
    and normalizes the result: empty and [.] segments disappear and a
    [..] segment removes the segment before it. *)

Module Path.

Fixpoint normalizeSegments (allowAboveRoot : bool)
         (segs : list jsstring) (res : list jsstring) : list jsstring :=
  match segs with
  | [] => rev res
  | seg :: rest =>
      if negb (truthy seg) || JS.eqb seg (lit ".") then
        normalizeSegments allowAboveRoot rest res
      else if JS.eqb seg (lit "..") then
        match res with
        | top :: res' =>
            if JS.eqb top (lit "..") then
              normalizeSegments allowAboveRoot rest
                (if allowAboveRoot then seg :: res else res)
            else normalizeSegments allowAboveRoot rest res'
        | [] =>
            normalizeSegments allowAboveRoot rest
              (if allowAboveRoot then [seg] else [])
        end
      else normalizeSegments allowAboveRoot rest (seg :: res)
  end.

Definition normalize (path : jsstring) : jsstring :=
  if negb (truthy path) then lit "."
  else
    let isAbsolute := startsWith path (lit "/") in
    let trailingSeparator := endsWith path (lit "/") in
    let p := join (lit "/")
               (normalizeSegments (negb isAbsolute) (split c_slash path) []) in
    if negb (truthy p) then
      if isAbsolute then lit "/"
      else if trailingSeparator then lit "./" else lit "."
    else
      let p := if trailingSeparator then p ++ lit "/" else p in
      if isAbsolute then lit "/" ++ p else p.

Definition join (args : list jsstring) : jsstring :=
  let joined := JS.join (lit "/") (filter_truthy args) in
  if negb (truthy joined) then lit "."
  else normalize joined.

End Path.

Definition resolveLocalGroupDir
           (workspaceFolder baseGroupName fullGroupName : jsstring) : jsstring :=
  let baseParts := splitGroupPath baseGroupName in
  let fullParts := splitGroupPath fullGroupName in
  let relParts :=
    if (0 <? length baseParts)%nat then
      let basePrefix :=
        join (lit "/") (slice fullParts 0 (Z.of_nat (length baseParts))) in
      if JS.eqb basePrefix (join (lit "/") baseParts)
      then slice_from fullParts (Z.of_nat (length baseParts))
      else fullParts
    else fullParts in
  if (length relParts =? 0)%nat then workspaceFolder
  else Path.join (workspaceFolder :: relParts).

(** ** Thrown errors *)

Inductive error :=
| EmptyOutput     (* new Error('Salida vacia del comando') *)
| NoJsonFound     (* new Error('No se encontro JSON valido en la salida') *)
| SyntaxError.    (* thrown by JSON.parse *)

Inductive result (A : Type) :=
| Return (a : A)
| Throw (e : error).

Arguments Return {A} a.
Arguments Throw {A} e.

(** ** [JSON.parse]

    The JSON grammar of ECMA-404, read by recursive descent.  A number is
    kept as its literal, an object as its members in source order. *)

Module JSON.

#[warnings="-register-all"]
Inductive value :=
| Null
| Bool (b : bool)
| Number (literal : jsstring)
| Str (s : jsstring)
| Array (items : list value)
| Object (members : list (jsstring * value)).

Definition isWs (c : N) : bool :=
  ((c =? 32) || (c =? 9) || (c =? 10) || (c =? 13))%N.

Fixpoint skip_ws (s : jsstring) : jsstring :=
  match s with
  | [] => []
  | c :: r => if isWs c then skip_ws r else s
  end.

Definition isDigit (c : N) : bool := ((48 <=? c) && (c <=? 57))%N.

Definition hexval (c : N) : option N :=
  if isDigit c then Some (c - 48)%N
  else if ((97 <=? c) && (c <=? 102))%N then Some (c - 87)%N
  else if ((65 <=? c) && (c <=? 70))%N then Some (c - 55)%N
  else None.

Definition hex4 (a b c d : N) : option N :=
  match hexval a, hexval b, hexval c, hexval d with
  | Some x, Some y, Some z, Some w =>
      Some (((x * 16 + y) * 16 + z) * 16 + w)%N
  | _, _, _, _ => None
  end.

(** Single-character escapes: the character after the backslash and the
    code unit it denotes. *)
Definition escape (e : N) : option N :=
  if (e =? 34)%N then Some 34%N           (* quote *)
  else if (e =? 92)%N then Some 92%N      (* backslash *)
  else if (e =? 47)%N then Some 47%N      (* slash *)
  else if (e =? 98)%N then Some 8%N       (* b *)
  else if (e =? 102)%N then Some 12%N     (* f *)
  else if (e =? 110)%N then Some 10%N     (* n *)
  else if (e =? 114)%N then Some 13%N     (* r *)
  else if (e =? 116)%N then Some 9%N      (* t *)
  else None.

(** The characters of a string after its opening quote, up to and
    including the closing quote; [acc] is reversed. *)
Fixpoint string_body (s acc : jsstring) : option (jsstring * jsstring) :=
  match s with
  | [] => None
  | c :: r =>
      if (c =? 34)%N then Some (rev acc, r)
      else if (c =? 92)%N then
        match r with
        | [] => None
        | e :: r' =>
            if (e =? 117)%N then        (* u and four hex digits *)
              match r' with
              | h1 :: h2 :: h3 :: h4 :: r'' =>
                  match hex4 h1 h2 h3 h4 with
                  | Some u => string_body r'' (u :: acc)
                  | None => None
                  end
              | _ => None
              end
            else
              match escape e with
              | Some u => string_body r' (u :: acc)
              | None => None
              end
        end
      else if (c <? 32)%N then None
      else string_body r (c :: acc)
  end.

Fixpoint digits (s : jsstring) : jsstring * jsstring :=
  match s with
  | [] => ([], [])
  | c :: r =>
      if isDigit c then let (ds, rest) := digits r in (c :: ds, rest)
      else ([], s)
  end.

(** number = [minus] int [frac] [exp]; each part gives its characters and
    the rest of the input. *)
Definition minus_part (s : jsstring) : jsstring * jsstring :=
  match s with
  | c :: r => if (c =? 45)%N then ([c], r) else ([], s)
  | [] => ([], s)
  end.

Definition int_part (s : jsstring) : option (jsstring * jsstring) :=
  match s with
  | [] => None
  | d :: r =>
      if negb (isDigit d) then None
      else if (d =? 48)%N then Some ([d], r)
      else Some (digits s)
  end.

Definition frac_part (s : jsstring) : option (jsstring * jsstring) :=
  match s with
  | dot :: r =>
      if (dot =? 46)%N then
        let (ds, rest) := digits r in
        match ds with
        | [] => None
        | _ :: _ => Some (dot :: ds, rest)
        end
      else Some ([], s)
  | [] => Some ([], s)
  end.

Definition exp_sign (s : jsstring) : jsstring * jsstring :=
  match s with
  | sg :: r => if ((sg =? 43) || (sg =? 45))%N then ([sg], r) else ([], s)
  | [] => ([], s)
  end.

Definition exp_part (s : jsstring) : option (jsstring * jsstring) :=
  match s with
  | e :: r =>
      if ((e =? 101) || (e =? 69))%N then
        let (esign, r') := exp_sign r in
        let (ds, rest) := digits r' in
        match ds with
        | [] => None
        | _ :: _ => Some (e :: esign ++ ds, rest)
        end
      else Some ([], s)
  | [] => Some ([], s)
  end.

Definition number (s : jsstring) : option (jsstring * jsstring) :=
  let (sign, s1) := minus_part s in
  match int_part s1 with
  | None => None
  | Some (int, s2) =>
      match frac_part s2 with
      | None => None
      | Some (fr, s3) =>
          match exp_part s3 with
          | None => None
          | Some (ex, s4) => Some (sign ++ int ++ fr ++ ex, s4)
          end
      end
  end.

Definition keyword (s : jsstring) : option (value * jsstring) :=
  if startsWith s (lit "true") then Some (Bool true, skipn 4 s)
  else if startsWith s (lit "false") then Some (Bool false, skipn 5 s)
  else if startsWith s (lit "null") then Some (Null, skipn 4 s)
  else None.

Fixpoint parse_value (fuel : nat) (s : jsstring) : option (value * jsstring) :=
  match fuel with
  | O => None
  | S n =>
      match skip_ws s with
      | [] => None
      | c :: r =>
          if (c =? c_lbrace)%N then
            match skip_ws r with
            | c' :: r' =>
                if (c' =? c_rbrace)%N then Some (Object [], r')
                else parse_members n r []
            | [] => None
            end
          else if (c =? c_lbracket)%N then
            match skip_ws r with
            | c' :: r' =>
                if (c' =? c_rbracket)%N then Some (Array [], r')
                else parse_elements n r []
            | [] => None
            end
          else if (c =? 34)%N then
            match string_body r [] with
            | Some (str, rest) => Some (Str str, rest)
            | None => None
            end
          else
            match keyword (c :: r) with
            | Some res => Some res
            | None =>
                match number (c :: r) with
                | Some (num, rest) => Some (Number num, rest)
                | None => None
                end
            end
      end
  end

with parse_elements (fuel : nat) (s : jsstring) (acc : list value)
     : option (value * jsstring) :=
  match fuel with
  | O => None
  | S n =>
      match parse_value n s with
      | None => None
      | Some (v, rest) =>
          match skip_ws rest with
          | c :: r =>
              if (c =? 44)%N then parse_elements n r (v :: acc)
              else if (c =? c_rbracket)%N then Some (Array (rev (v :: acc)), r)
              else None
          | [] => None
          end
      end
  end

with parse_members (fuel : nat) (s : jsstring) (acc : list (jsstring * value))
     : option (value * jsstring) :=
  match fuel with
  | O => None
  | S n =>
      match skip_ws s with
      | q :: r =>
          if negb (q =? 34)%N then None
          else
            match string_body r [] with
            | None => None
            | Some (key, r1) =>
                match skip_ws r1 with
                | colon :: r2 =>
                    if negb (colon =? 58)%N then None
                    else
                      match parse_value n r2 with
                      | None => None
                      | Some (v, r3) =>
                          match skip_ws r3 with
                          | c :: r4 =>
                              if (c =? 44)%N
                              then parse_members n r4 ((key, v) :: acc)
                              else if (c =? c_rbrace)%N
                              then Some (Object (rev ((key, v) :: acc)), r4)
                              else None
                          | [] => None
                          end
                      end
                | [] => None
                end
            end
      | [] => None
      end
  end.

(** Nesting costs two units of fuel for each character read, so twice
    the length of the text is always enough. *)
Definition parse (text : jsstring) : result value :=
  match parse_value (S (2 * length text)) text with
  | Some (v, rest) =>
      match skip_ws rest with
      | [] => Return v
      | _ :: _ => Throw SyntaxError
      end
  | None => Throw SyntaxError
  end.

End JSON.

(** ** Output interpreter *)

Definition parseJsonFromCommandOutput (output : jsstring) : result JSON.value :=
  let trimmed := trim (or_else output []) in
  if negb (truthy trimmed) then Throw EmptyOutput
  else if (startsWith trimmed (lit "{") && endsWith trimmed (lit "}"))
          || (startsWith trimmed (lit "[") && endsWith trimmed (lit "]"))
  then JSON.parse trimmed
  else
    let startObj := indexOf trimmed c_lbrace in
    let endObj := lastIndexOf trimmed c_rbrace in
    if negb (startObj =? -1)%Z && negb (endObj =? -1)%Z && (endObj >? startObj)%Z
    then JSON.parse (slice trimmed startObj (endObj + 1))
    else
      let startArr := indexOf trimmed c_lbracket in
      let endArr := lastIndexOf trimmed c_rbracket in
      if negb (startArr =? -1)%Z && negb (endArr =? -1)%Z && (endArr >? startArr)%Z
      then JSON.parse (slice trimmed startArr (endArr + 1))
      else Throw NoJsonFound.

(** Names for its tests: the trimmed text looks like one whole JSON
    value, and a pair of indices delimits a substring. *)
Definition looksWhole (trimmed : jsstring) : bool :=
  (startsWith trimmed (lit "{") && endsWith trimmed (lit "}"))
  || (startsWith trimmed (lit "[") && endsWith trimmed (lit "]")).

Definition hasSpan (start finish : Z) : bool :=
  negb (start =? -1)%Z && negb (finish =? -1)%Z && (finish >? start)%Z.

(** ** Text for the web views *)

Definition escapeHtml (value : jsstring) : jsstring :=
  replaceAll 39 (lit "&#39;")
    (replaceAll 34 (lit "&quot;")
      (replaceAll 62 (lit "&gt;")
        (replaceAll 60 (lit "&lt;")
          (replaceAll 38 (lit "&amp;") (or_else value []))))).

(** The entity that stands for one character. *)
Definition escapeChar (c : N) : jsstring :=
  if (c =? 38)%N then lit "&amp;"
  else if (c =? 60)%N then lit "&lt;"
  else if (c =? 62)%N then lit "&gt;"
  else if (c =? 34)%N then lit "&quot;"
  else if (c =? 39)%N then lit "&#39;"
  else [c].

(** ** Regular expressions

    A backtracking matcher for the fragment the extension uses:
    character tests, sequence, greedy star and one capture group.  The
    continuation receives the rest of the input and the capture. *)

Module RegExp.

Inductive regex :=
| Eps
| Chr (test : N -> bool)
| Seq (r1 r2 : regex)
| Star (r : regex)
| Group (r : regex).

Definition plus (r : regex) : regex := Seq r (Star r).

Fixpoint exec_at {X : Type} (r : regex) (s : jsstring) (cap : option jsstring)
         (k : jsstring -> option jsstring -> option X) : option X :=
  match r with
  | Eps => k s cap
  | Chr test =>
      match s with
      | c :: s' => if test c then k s' cap else None
      | [] => None
      end
  | Seq r1 r2 => exec_at r1 s cap (fun s' cap' => exec_at r2 s' cap' k)
  | Star r1 =>
      (fix loop (n : nat) (s : jsstring) (cap : option jsstring) : option X :=
         match n with
         | O => k s cap
         | S n' =>
             match exec_at r1 s cap
                     (fun s' cap' =>
                        if (length s' <? length s)%nat then loop n' s' cap'
                        else None) with
             | Some x => Some x
             | None => k s cap
             end
         end) (length s) s cap
  | Group r1 =>
      exec_at r1 s cap
        (fun s' _ => k s' (Some (firstn (length s - length s') s)))
  end.

(** [s.match(r)] for a regular expression without the global flag: the
    leftmost match; the result here is capture group 1. *)
Fixpoint search (r : regex) (s : jsstring) : option (option jsstring) :=
  match exec_at r s None (fun _ cap => Some cap) with
  | Some cap => Some cap
  | None =>
      match s with
      | [] => None
      | _ :: s' => search r s'
      end
  end.

(** Canonicalization under the [i] flag, without the [u] flag.  A code
    unit of 128 or more is never canonicalized to an ASCII one, so
    against the ASCII characters of a pattern only the ASCII letters are
    folded. *)
Definition canonicalize (c : N) : N :=
  if ((97 <=? c) && (c <=? 122))%N then (c - 32)%N else c.

Definition chr_i (a : N) : regex :=
  Chr (fun c => (canonicalize c =? canonicalize a)%N).

Definition class_i (members : list N) : regex :=
  Chr (fun c => existsb (fun a => (canonicalize a =? canonicalize c)%N) members).

Fixpoint literal_i (s : jsstring) : regex :=
  match s with
  | [] => Eps
  | c :: r => Seq (chr_i c) (literal_i r)
  end.

Definition range (a b : N) : list N :=
  List.map N.of_nat (seq (N.to_nat a) (S (N.to_nat b) - N.to_nat a)).

Definition space : regex := Chr isWhiteSpace.

(** The words a regular expression matches. *)
Inductive Matches : regex -> jsstring -> Prop :=
| MEps : Matches Eps []
| MChr test c : test c = true -> Matches (Chr test) [c]
| MSeq r1 r2 w1 w2 :
    Matches r1 w1 -> Matches r2 w2 -> Matches (Seq r1 r2) (w1 ++ w2)
| MStarStop r : Matches (Star r) []
| MStarStep r w1 w2 :
    Matches r w1 -> Matches (Star r) w2 -> Matches (Star r) (w1 ++ w2)
| MGroup r w : Matches r w -> Matches (Group r) w.

(** Every capture group of [r] matches only words with property [Q]. *)
Fixpoint captures_only (Q : jsstring -> Prop) (r : regex) : Prop :=
  match r with
  | Eps | Chr _ => True
  | Seq r1 r2 => captures_only Q r1 /\ captures_only Q r2
  | Star r1 => captures_only Q r1
  | Group r1 => captures_only Q r1 /\ forall w, Matches r1 w -> Q w
  end.

(** The input after a run stops the run: it is empty or starts with a
    character that fails the test. *)
Definition stops (test : N -> bool) (rest : jsstring) : Prop :=
  match rest with
  | [] => True
  | c :: _ => test c = false
  end.

(** The capture after a match is the one before, or a word of [Q]. *)
Definition capture_step (Q : jsstring -> Prop) (cap cap' : option jsstring) : Prop :=
  cap' = cap \/ exists v, cap' = Some v /\ Q v.

End RegExp.

(** ** Workflow identifier *)

(** The pattern of the source: the word workflow_id, optional space, an
    equals sign, optional space, a single or double quote, a captured run
    of one or more characters of the class a-f, 0-9 and hyphen, and a
    closing single or double quote; the [i] flag is set. *)
Definition workflowIdPattern : RegExp.regex :=
  let quote := RegExp.class_i [34; 39]%N in
  RegExp.Seq (RegExp.literal_i (lit "workflow_id"))
    (RegExp.Seq (RegExp.Star RegExp.space)
      (RegExp.Seq (RegExp.chr_i 61)
        (RegExp.Seq (RegExp.Star RegExp.space)
          (RegExp.Seq quote
            (RegExp.Seq
               (RegExp.Group
                  (RegExp.plus
                     (RegExp.class_i
                        (RegExp.range 97 102 ++ RegExp.range 48 57 ++ [45%N]))))
               quote))))).

Definition extractWorkflowId (fileContent : jsstring) : option jsstring :=
  match RegExp.search workflowIdPattern fileContent with
  | Some (Some id) => if truthy id then Some id else None
  | _ => None
  end.

(** A hexadecimal digit of either case, or a hyphen. *)
Definition isHexOrHyphen (c : N) : bool :=
  (((48 <=? c) && (c <=? 57)) || ((97 <=? c) && (c <=? 102))
   || ((65 <=? c) && (c <=? 70)) || (c =? 45))%N.

(** ** Commands run through the shell

    The editor, the file system and the child process are the host.  A
    command is a function from the events so far to its outcome (resolved
    or rejected) and the events extended; [await] is [bind], and
    [try]/[catch] is [try_catch]. *)

Module Orchestrator.

Inductive event :=
| ChannelShow                                   (* outputChannel.show(true) *)
| AppendLine (line : jsstring)                  (* outputChannel.appendLine *)
| ErrorMessage (msg : jsstring)                 (* showErrorMessage *)
| WarningMessage (msg : jsstring)               (* showWarningMessage *)
| InformationMessage (msg : jsstring)           (* showInformationMessage *)
| SaveDocument                                  (* document.save() *)
| Exec (command cwd : jsstring) (pathPrefix : option jsstring)
                                                (* child_process.exec *)
| ConsoleError (msg : jsstring).                (* console.error *)

Inductive rejection :=
| NoWorkspaceFolder                  (* new Error('No workspace folder') *)
| ExecError (message : jsstring).    (* the error exec hands to its callback *)

(** What [exec] hands to its callback: the message of the error, if the
    process could not be started or exited with a non-zero code, and the
    two outputs. *)
Record ExecOutcome := mkExecOutcome {
  error : option jsstring;
  stdout : jsstring;
  stderr : jsstring
}.

(** The host: the folder of the workspace, the file of the active
    editor, the configured interpreter path, the files that exist, and
    what a child process does given the events so far, its command line
    and its working directory. *)
Record Host := mkHost {
  workspaceFolder : option jsstring;
  activeEditorFile : option jsstring;
  configPythonPath : option jsstring;
  existsSync : jsstring -> bool;
  child : list event -> jsstring -> jsstring -> ExecOutcome
}.

Inductive outcome (A : Type) :=
| Resolved (a : A)
| Rejected (e : rejection).

Arguments Resolved {A} a.
Arguments Rejected {A} e.

Definition M (A : Type) : Type := list event -> outcome A * list event.

Definition ret {A} (a : A) : M A := fun tr => (Resolved a, tr).

Definition reject {A} (e : rejection) : M A := fun tr => (Rejected e, tr).

Definition bind {A B} (m : M A) (f : A -> M B) : M B :=
  fun tr =>
    match m tr with
    | (Resolved a, tr') => f a tr'
    | (Rejected e, tr') => (Rejected e, tr')
    end.

Definition try_catch {A} (body : M A) (handler : rejection -> M A) : M A :=
  fun tr =>
    match body tr with
    | (Resolved a, tr') => (Resolved a, tr')
    | (Rejected e, tr') => handler e tr'
    end.

Definition emit (e : event) : M unit := fun tr => (Resolved tt, tr ++ [e]).

Definition history : M (list event) := fun tr => (Resolved tr, tr).

Definition when (b : bool) (m : M unit) : M unit := if b then m else ret tt.

Notation "x <- m ;; k" := (bind m (fun x => k))
  (at level 61, m at next level, right associativity).
Notation "m ;;; k" := (bind m (fun _ => k))
  (at level 61, right associativity).

Definition check_mark : N := 10003.
Definition newline : N := 10.
Definition dquote : N := 34.

Definition quoted (s : jsstring) : jsstring := dquote :: s ++ [dquote].

Definition rule : jsstring := repeat 61%N 60.

Definition quoteIfNeeded (value : jsstring) : jsstring :=
  if negb (truthy value) then value
  else if includes value (lit " ") && negb (startsWith value [dquote])
       then quoted value
       else value.

Definition shellQuote (value : jsstring) : jsstring :=
  let safe := replaceAll dquote [dquote; dquote] (or_else value []) in
  quoted safe.

Section Commands.

(** [path.dirname] and [path.basename] of the platform. *)
Variable path_dirname : jsstring -> jsstring.
Variable path_basename : jsstring -> option jsstring -> jsstring.
Variable path_delimiter : jsstring.
Variable processPATH : jsstring.

Variable host : Host.

(** [vscode.workspace.workspaceFolders?.[0]?.uri.fsPath], where a
    missing folder and an empty path are both falsy. *)
Definition workspacePath : option jsstring :=
  match workspaceFolder host with
  | Some ws => if truthy ws then Some ws else None
  | None => None
  end.

Definition findVenvPython : option jsstring :=
  match workspacePath with
  | None => None
  | Some ws =>
      let venvRoot := Path.join [ws; lit ".venv"] in
      let windowsPython := Path.join [venvRoot; lit "Scripts"; lit "python.exe"] in
      let unixPython := Path.join [venvRoot; lit "bin"; lit "python"] in
      if existsSync host windowsPython then Some windowsPython
      else if existsSync host unixPython then Some unixPython
      else None
  end.

Definition getPythonCommand : jsstring :=
  let pythonPath :=
    or_else (match configPythonPath host with Some p => p | None => [] end)
            (lit "python") in
  if truthy pythonPath && negb (JS.eqb pythonPath (lit "python"))
  then quoteIfNeeded pythonPath
  else match findVenvPython with
       | Some _ => lit "python"
       | None => lit "python"
       end.

Definition getActiveFilePath : M (option jsstring) :=
  match activeEditorFile host with
  | None =>
      emit (ErrorMessage (lit "No hay archivo activo")) ;;; ret None
  | Some filePath =>
      if negb (endsWith filePath (lit ".py")) then
        emit (WarningMessage (lit "El archivo activo no es un archivo Python")) ;;;
        ret None
      else ret (Some filePath)
  end.

Definition executePy2RocketCommand
           (command filePath : jsstring) (workingDir : option jsstring)
  : M unit :=
  match workspacePath with
  | None =>
      emit (ErrorMessage (lit "No hay una carpeta de trabajo abierta")) ;;;
      reject NoWorkspaceFolder
  | Some workspaceFolder =>
      emit ChannelShow ;;;
      emit (AppendLine (newline :: rule)) ;;;
      emit (AppendLine (lit "Ejecutando: " ++ command)) ;;;
      emit (AppendLine (lit "Archivo: " ++ filePath)) ;;;
      emit (AppendLine (rule ++ [newline])) ;;;
      let cwd :=
        or_else (match workingDir with Some d => d | None => [] end)
                (path_dirname filePath) in
      let venvPath := Path.join [workspaceFolder; lit ".venv"; lit "Scripts"] in
      let pathPrefix :=
        if existsSync host venvPath
        then Some (venvPath ++ path_delimiter ++ processPATH)
        else None in
      before <- history ;;
      emit (Exec command cwd pathPrefix) ;;;
      let out := child host before command cwd in
      when (truthy (stdout out)) (emit (AppendLine (stdout out))) ;;;
      when (truthy (stderr out))
           (emit (AppendLine (lit "STDERR: " ++ stderr out))) ;;;
      match error out with
      | Some message =>
          emit (AppendLine (newline :: lit "Error: " ++ message)) ;;;
          emit (ErrorMessage (lit "Error ejecutando py2rocket: " ++ message)) ;;;
          reject (ExecError message)
      | None =>
          emit (AppendLine
                  (newline :: check_mark :: lit " Comando completado exitosamente")) ;;;
          emit (InformationMessage
                  (check_mark :: lit " " ++ command ++ lit " completado")) ;;;
          ret tt
      end
  end.

Definition buildCommandLine (filePath : jsstring) : jsstring :=
  let fileName := path_basename filePath None in
  getPythonCommand ++ lit " -m py2rocket build " ++ quoted fileName.

Definition pushCommandLine (filePath : jsstring) : jsstring :=
  let fileNameWithoutExt := path_basename filePath (Some (lit ".py")) in
  let jsonFileName := fileNameWithoutExt ++ lit ".json" in
  getPythonCommand ++ lit " -m py2rocket push " ++ quoted jsonFileName.

Definition buildAndPushCommand : M unit :=
  active <- getActiveFilePath ;;
  match active with
  | None => ret tt
  | Some filePath =>
      emit SaveDocument ;;;
      let fileNameWithoutExt := path_basename filePath (Some (lit ".py")) in
      let fileDir := path_dirname filePath in
      try_catch
        (emit (AppendLine (lit "Paso 1/2: Building...")) ;;;
         executePy2RocketCommand (buildCommandLine filePath) filePath (Some fileDir) ;;;
         emit (AppendLine (newline :: lit "Paso 2/2: Pushing to Rocket...")) ;;;
         executePy2RocketCommand (pushCommandLine filePath) filePath (Some fileDir) ;;;
         emit (InformationMessage
                 (check_mark :: lit " Build and Push completado: "
                             ++ fileNameWithoutExt)))
        (fun e => emit (ConsoleError (lit "Error en build and push:")))
  end.

Definition buildAndPushSilentCommand : M unit :=
  active <- getActiveFilePath ;;
  match active with
  | None => ret tt
  | Some filePath =>
      emit SaveDocument ;;;
      let fileNameWithoutExt := path_basename filePath (Some (lit ".py")) in
      let fileDir := path_dirname filePath in
      try_catch
        (emit (AppendLine (lit "Paso 1/2: Building...")) ;;;
         executePy2RocketCommand (buildCommandLine filePath) filePath (Some fileDir) ;;;
         emit (AppendLine (newline :: lit "Paso 2/2: Pushing to Rocket...")) ;;;
         executePy2RocketCommand (pushCommandLine filePath) filePath (Some fileDir) ;;;
         emit (InformationMessage
                 (check_mark :: lit " Push completado: " ++ fileNameWithoutExt)))
        (fun e => emit (ConsoleError (lit "Error en build and push:")))
  end.

End Commands.

(** The command lines handed to the shell, in order. *)
Fixpoint commands_run (tr : list event) : list jsstring :=
  match tr with
  | [] => []
  | Exec command _ _ :: rest => command :: commands_run rest
  | _ :: rest => commands_run rest
  end.

(** What a call writes to the channel before it runs its command. *)
Definition announce (command filePath : jsstring) : list event :=
  [ChannelShow;
   AppendLine (newline :: rule);
   AppendLine (lit "Ejecutando: " ++ command);
   AppendLine (lit "Archivo: " ++ filePath);
   AppendLine (rule ++ [newline])].

(** A host whose build fails: the file /ws/report.py in the workspace
    /ws, and a child process that always exits with an error. *)
Definition failing_host : Host :=
  mkHost (Some (lit "/ws")) (Some (lit "/ws/report.py")) None
         (fun _ => false)
         (fun _ _ _ => mkExecOutcome (Some (lit "Command failed")) [] (lit "boom")).

(** The same workspace with a child process that always succeeds. *)
Definition succeeding_host : Host :=
  mkHost (Some (lit "/ws")) (Some (lit "/ws/report.py")) None
         (fun _ => false)
         (fun _ _ _ => mkExecOutcome None (lit "ok") []).

Definition sample_dirname (p : jsstring) : jsstring := lit "/ws".

Definition sample_basename (p : jsstring) (ext : option jsstring) : jsstring :=
  match ext with
  | None => lit "report.py"
  | Some _ => lit "report"
  end.

End Orchestrator.

(** ** The execution form: values read from the command output

    What [JSON.parse] returned is read with property accesses and
    truthiness tests.  Whether a number is zero, and the text of a value
    that is used as a property key without being a string, are left to
    the host: they depend on the floating-point reading of the
    literal. *)

Module RunView.

(** [v.key] on an object: the member written last under the key. *)
Fixpoint lookup (members : list (jsstring * JSON.value)) (key : jsstring)
  : option JSON.value :=
  match members with
  | [] => None
  | (k, v) :: rest =>
      match lookup rest key with
      | Some v' => Some v'
      | None => if JS.eqb k key then Some v else None
      end
  end.

(** [v?.key]: undefined unless the value is an object with the key. *)
Definition get (v : option JSON.value) (key : jsstring) : option JSON.value :=
  match v with
  | Some (JSON.Object members) => lookup members key
  | _ => None
  end.

(** [Array.isArray(v) ? v : []] *)
Definition arrayItems (v : option JSON.value) : list JSON.value :=
  match v with
  | Some (JSON.Array items) => items
  | _ => []
  end.

(** The decimal text of an index, as a template literal writes it. *)
Definition decimal (n : nat) : jsstring :=
  lit (NilZero.string_of_uint (Nat.to_uint n)).

(** *** Objects written by assignment *)

(** The value of an array-index key: decimal digits without a leading
    zero, below 2^32 - 1. *)
Definition isDigit (c : N) : bool := ((48 <=? c) && (c <=? 57))%N.

Definition digitsValue (digits : jsstring) : N :=
  fold_left (fun acc c => (10 * acc + (c - 48))%N) digits 0%N.

Definition arrayIndex (key : jsstring) : option N :=
  match key with
  | [] => None
  | c :: rest =>
      if forallb isDigit key
         && (negb (c =? 48)%N || negb (truthy rest))
         && (digitsValue key <? 4294967295)%N
      then Some (digitsValue key)
      else None
  end.

(** The keys of a parsed object, each once, in the order the text first
    names them. *)
Fixpoint keysOnce (members : list (jsstring * JSON.value)) (seen : list jsstring)
  : list jsstring :=
  match members with
  | [] => []
  | (k, _) :: rest =>
      if existsb (JS.eqb k) seen then keysOnce rest seen
      else k :: keysOnce rest (k :: seen)
  end.

Fixpoint insertKey (n : N) (key : jsstring) (sorted : list (N * jsstring))
  : list (N * jsstring) :=
  match sorted with
  | [] => [(n, key)]
  | (m, k) :: rest =>
      if (n <=? m)%N then (n, key) :: sorted
      else (m, k) :: insertKey n key rest
  end.

(** The array-index keys, in ascending order of their values. *)
Definition indexKeys (keys : list jsstring) : list jsstring :=
  List.map snd
    (fold_right (fun k sorted => match arrayIndex k with
                                 | Some n => insertKey n k sorted
                                 | None => sorted
                                 end)
                [] keys).

(** The other keys, in the order they were made. *)
Definition nameKeys (keys : list jsstring) : list jsstring :=
  List.filter (fun k => match arrayIndex k with
                        | Some _ => false
                        | None => true
                        end) keys.

(** The own keys of a parsed object in the order of enumeration: the
    array indices first, then the other keys. *)
Definition ownKeys (members : list (jsstring * JSON.value)) : list jsstring :=
  let keys := keysOnce members [] in
  indexKeys keys ++ nameKeys keys.

(** [Object.entries(v)] on a parsed object. *)
Definition entries (members : list (jsstring * JSON.value))
  : list (jsstring * JSON.value) :=
  flat_map (fun k => match lookup members k with
                     | Some v => [(k, v)]
                     | None => []
                     end)
           (ownKeys members).

(** The object [normalized]: the assignments that made or changed an own
    property, in the order they were made, a key holding the value
    assigned last as [lookup] reads it; and the value a [__proto__]
    assignment installed as the prototype, if any, in place of
    [Object.prototype]. *)
Record Normalized := mkNormalized {
  ownProperties : list (jsstring * JSON.value);
  installedPrototype : option JSON.value
}.

(** [{}] *)
Definition emptyObject : Normalized := mkNormalized [] None.

Definition owns (members : list (jsstring * JSON.value)) (key : jsstring) : bool :=
  match lookup members key with
  | Some _ => true
  | None => false
  end.

(** Whether an assignment to [__proto__] finds a data property of that
    name before it reaches the accessor of [Object.prototype]: on the
    object itself, or on an installed prototype, which is a parsed value
    and owns the key when its text names it (an array never does). *)
Definition shadowsProto (o : Normalized) : bool :=
  owns (ownProperties o) (lit "__proto__")
  || match installedPrototype o with
     | Some (JSON.Object members) => owns members (lit "__proto__")
     | _ => false
     end.

(** [normalized[key] = value].  Every key but [__proto__] makes or changes
    an own property: the prototypes have writable data properties only
    under other names.  An assignment to [__proto__] does the same when a
    data property shadows the accessor; otherwise it calls the setter,
    which installs an object or array as the prototype and ignores any
    other value. *)
Definition assignment (o : Normalized) (key : jsstring) (value : JSON.value)
  : Normalized :=
  if negb (JS.eqb key (lit "__proto__")) || shadowsProto o
  then mkNormalized (ownProperties o ++ [(key, value)]) (installedPrototype o)
  else match value with
       | JSON.Array _ | JSON.Object _ => mkNormalized (ownProperties o) (Some value)
       | _ => o
       end.

Record ContextGroup := mkContextGroup {
  listName : JSON.value;
  contexts : list JSON.value;
  selected : JSON.value
}.

(** What [buildExecutionConfigFromRunView] builds: the two lists of its
    loop, the required names and the defaults.  The last is [None] when
    [normalizeExtraParamsWithDefault] throws: the function then throws
    too, after it has built the other three. *)
Record ExecutionConfig := mkExecutionConfig {
  contextGroups : list ContextGroup;
  fixedParamsLists : list JSON.value;
  extraRequired : list JSON.value;
  extraDefaults : option Normalized
}.

Section Reading.

(** Whether a number is truthy, from its text. *)
Variable numberTruthy : jsstring -> bool.

(** The text of a value that is not a string, when it is made a property
    key; none when the conversion throws a TypeError, as it does for an
    object that has a member [toString]. *)
Variable textOf : JSON.value -> option jsstring.

Definition truthyValue (v : JSON.value) : bool :=
  match v with
  | JSON.Null => false
  | JSON.Bool b => b
  | JSON.Number literal => numberTruthy literal
  | JSON.Str s => truthy s
  | JSON.Array _ => true
  | JSON.Object _ => true
  end.

Definition truthyOption (v : option JSON.value) : bool :=
  match v with
  | Some v => truthyValue v
  | None => false
  end.

(** [a || b] where [a] may be undefined. *)
Definition orValue (a : option JSON.value) (b : JSON.value) : JSON.value :=
  match a with
  | Some v => if truthyValue v then v else b
  | None => b
  end.

(** [v ?? ''] *)
Definition orEmptyText (v : option JSON.value) : JSON.value :=
  match v with
  | Some JSON.Null => JSON.Str []
  | Some v => v
  | None => JSON.Str []
  end.

(** The key a value names when it indexes an object, if the conversion
    does not throw. *)
Definition propertyKey (v : JSON.value) : option jsstring :=
  match v with
  | JSON.Str s => Some s
  | _ => textOf v
  end.

(** [item && typeof item === 'object' && item.name], and then the name. *)
Definition namedItem (item : JSON.value) : option JSON.value :=
  match item with
  | JSON.Array _ | JSON.Object _ =>
      match get (Some item) (lit "name") with
      | Some name => if truthyValue name then Some name else None
      | None => None
      end
  | _ => None
  end.

(** The [forEach] over an array: the items from one on, with the object
    as the earlier items left it; [None] when a key conversion throws. *)
Fixpoint assignItems (items : list JSON.value) (normalized : Normalized)
  : option Normalized :=
  match items with
  | [] => Some normalized
  | item :: rest =>
      match namedItem item with
      | Some name =>
          match propertyKey name with
          | Some key =>
              assignItems rest
                (assignment normalized key
                            (orEmptyText (get (Some item) (lit "value"))))
          | None => None
          end
      | None => assignItems rest normalized
      end
  end.

(** The [forEach] over the entries of an object; their keys are strings. *)
Definition assignEntries (pairs : list (jsstring * JSON.value))
           (normalized : Normalized) : Normalized :=
  fold_left (fun normalized entry =>
               assignment normalized (fst entry) (orEmptyText (Some (snd entry))))
            pairs normalized.

(** [None] when the function throws. *)
Definition normalizeExtraParamsWithDefault (extraParamsWithDefault : option JSON.value)
  : option Normalized :=
  match extraParamsWithDefault with
  | Some (JSON.Array items) => assignItems items emptyObject
  | Some (JSON.Object members) => Some (assignEntries (entries members) emptyObject)
  | _ => Some emptyObject
  end.



(** [currentSet.has(ctx)] for a set of strings. *)
Definition has (currentParamsLists : list jsstring) (ctx : JSON.value) : bool :=
  match ctx with
  | JSON.Str s => existsb (JS.eqb s) currentParamsLists
  | _ => false
  end.

(** The loop over [groupsAndContexts], from the given index on: the
    context groups and the fixed lists it pushes. *)
Fixpoint scanGroups (currentParamsLists : list jsstring) (index : nat)
         (groups : list JSON.value) : list ContextGroup * list JSON.value :=
  match groups with
  | [] => ([], [])
  | group :: rest =>
      let listName :=
        orValue (get (get (Some group) (lit "parameterList")) (lit "name"))
                (JSON.Str (lit "Lista " ++ decimal (index + 1))) in
      let contexts :=
        List.filter truthyValue
          (flat_map (fun ctx =>
                       match get (Some ctx) (lit "name") with
                       | Some name => [name]
                       | None => []
                       end)
                    (arrayItems (get (Some group) (lit "contexts")))) in
      let (contextGroups, fixedParamsLists) :=
        scanGroups currentParamsLists (S index) rest in
      match contexts with
      | first :: _ =>
          let selected :=
            orValue (List.find (has currentParamsLists) contexts) first in
          (mkContextGroup listName contexts selected :: contextGroups,
           fixedParamsLists)
      | [] =>
          if truthyValue listName
          then (contextGroups, listName :: fixedParamsLists)
          else (contextGroups, fixedParamsLists)
      end
  end.

Definition buildExecutionConfigFromRunView
           (paramData : JSON.value) (currentParamsLists : list jsstring)
  : ExecutionConfig :=
  let groupsAndContexts :=
    arrayItems (get (Some paramData) (lit "groupsAndContexts")) in
  let (contextGroups, fixedParamsLists) :=
    scanGroups currentParamsLists 0 groupsAndContexts in
  let extraRequired :=
    List.filter truthyValue
      (flat_map (fun item =>
                   match item with
                   | JSON.Str _ => [item]
                   | _ => match namedItem item with
                          | Some name => [name]
                          | None => []
                          end
                   end)
                (arrayItems (get (Some paramData) (lit "extraParams")))) in
  let extraDefaults :=
    normalizeExtraParamsWithDefault
      (get (Some paramData) (lit "extraParamsWithDefault")) in
  mkExecutionConfig contextGroups fixedParamsLists extraRequired extraDefaults.

(** What the loop keeps of every context group it pushes. *)
Definition well_formed_group (currentParamsLists : list jsstring) (g : ContextGroup)
  : Prop :=
  contexts g <> []
  /\ Forall (fun ctx => truthyValue ctx = true) (contexts g)
  /\ In (selected g) (contexts g)
  /\ (existsb (has currentParamsLists) (contexts g) = true ->
      has currentParamsLists (selected g) = true).

End Reading.

(** *** The compiled file next to a source file *)

(** [inputPath.replace(/\.py$/i, '.json')]: the pattern can match at the
    last three characters only. *)
Definition replacePySuffix (inputPath : jsstring) : jsstring :=
  let stem := firstn (length inputPath - 3) inputPath in
  let tail := skipn (length inputPath - 3) inputPath in
  if JS.eqb (List.map RegExp.canonicalize tail)
            (List.map RegExp.canonicalize (lit ".py"))
  then stem ++ lit ".json"
  else inputPath.

(** The constant [jsonPath] of [getCurrentPipelineParamsLists]. *)
Definition pipelineJsonPath (filePath : jsstring) : jsstring :=
  let inputPath := or_else filePath [] in
  if endsWith inputPath (lit ".json") then inputPath
  else if endsWith inputPath (lit ".py") then replacePySuffix inputPath
  else inputPath ++ lit ".json".

(** The files: which paths exist, and the text of a file, if it can be
    read. *)
Record Files := mkFiles {
  existsSync : jsstring -> bool;
  readFileSync : jsstring -> option jsstring
}.

(** The body of the [try]; a failed read and a syntax error both end in
    the [catch], which returns the empty array. *)
Definition getCurrentPipelineParamsLists (fs : Files) (filePath : jsstring)
  : list jsstring :=
  let jsonPath := pipelineJsonPath filePath in
  if negb (existsSync fs jsonPath) then []
  else
    match readFileSync fs jsonPath with
    | None => []
    | Some content =>
        match JSON.parse content with
        | Throw _ => []
        | Return data =>
            let paramsLists :=
              get (get (get (Some data) (lit "settings")) (lit "global"))
                  (lit "parametersLists") in
            flat_map (fun p => match p with
                               | JSON.Str s => [s]
                               | _ => []
                               end)
                     (arrayItems paramsLists)
        end
    end.

(** *** Errors of a child process *)






(** A directory with one compiled pipeline. *)
Definition sample_files : Files :=
  mkFiles (fun p => JS.eqb p (lit "/w/flow.json"))
          (fun p => if JS.eqb p (lit "/w/flow.json")
                    then Some (litq "{'settings': {'global': {'parametersLists': ['dev', 7, 'prod']}}}")
                    else None).


(** A run view with one list that has contexts and one that has none. *)
Definition sample_run_view : JSON.value :=
  JSON.Object
    [(lit "groupsAndContexts",
      JSON.Array
        [JSON.Object
           [(lit "parameterList", JSON.Object [(lit "name", JSON.Str (lit "env"))]);
            (lit "contexts",
             JSON.Array [JSON.Object [(lit "name", JSON.Str (lit "dev"))];
                         JSON.Object [(lit "name", JSON.Str (lit "prod"))]])];
         JSON.Object
           [(lit "parameterList", JSON.Object [(lit "name", JSON.Str (lit "fixed"))])]])].

End RunView.

(** ** Statements of the specification that the code does not meet *)

(** C1, as stated: whatever brace-free noise surrounds one JSON object, the
    value of that object is returned. *)
Definition recovers_embedded_object : Prop :=
  forall (pre body post : jsstring) (v : JSON.value),
    ~ In c_lbrace pre -> ~ In c_rbrace pre ->
    ~ In c_lbrace post -> ~ In c_rbrace post ->
    JSON.parse (c_lbrace :: body ++ [c_rbrace]) = Return v ->
    parseJsonFromCommandOutput (pre ++ (c_lbrace :: body ++ [c_rbrace]) ++ post)
    = Return v.

(** C2, as stated: in the bracket scan, when the substring from the first
    opening brace to the last closing brace exists but does not parse and
    the substring from the first opening bracket to the last closing
    bracket parses, the parsed array is returned. *)
Definition array_attempt_after_failed_object : Prop :=
  forall (output pre body post pre' body' post' : jsstring)
         (e : error) (v : JSON.value),
    looksWhole (trim output) = false ->
    trim output = pre ++ c_lbrace :: body ++ c_rbrace :: post ->
    ~ In c_lbrace pre -> ~ In c_rbrace post ->
    JSON.parse (c_lbrace :: body ++ [c_rbrace]) = Throw e ->
    trim output = pre' ++ c_lbracket :: body' ++ c_rbracket :: post' ->
    ~ In c_lbracket pre' -> ~ In c_rbracket post' ->
    JSON.parse (c_lbracket :: body' ++ [c_rbracket]) = Return v ->
    parseJsonFromCommandOutput output = Return v.

(** C3, as stated: with base proj/groupA, the inputs groupA/sub and sub
    both give proj/groupA/sub. *)
Definition buildFullGroupName_shared_prefix : Prop :=
  buildFullGroupName (lit "proj/groupA") (lit "groupA/sub") = lit "proj/groupA/sub"
  /\ buildFullGroupName (lit "proj/groupA") (lit "sub") = lit "proj/groupA/sub".

(** C4, as stated: the base prefix is stripped when it is a segment
    prefix, and every full path that does not extend the base resolves to
    the workspace root. *)
Definition resolveLocalGroupDir_root_unless_extends : Prop :=
  (forall workspaceFolder baseGroupName fullGroupName rest,
      splitGroupPath fullGroupName = splitGroupPath baseGroupName ++ rest ->
      resolveLocalGroupDir workspaceFolder baseGroupName fullGroupName
      = match rest with
        | [] => workspaceFolder
        | _ :: _ => Path.join (workspaceFolder :: rest)
        end)
  /\ (forall workspaceFolder baseGroupName fullGroupName : jsstring,
         (forall rest,
             splitGroupPath fullGroupName <> splitGroupPath baseGroupName ++ rest) ->
         resolveLocalGroupDir workspaceFolder baseGroupName fullGroupName
         = workspaceFolder).

(** C6, as stated: normalizing the normalized path of any input yields the
    same path.  A segment of white space before a trailing separator ends
    up last and is trimmed away by the second pass. *)
Definition normalizeGroupPath_idempotent : Prop :=
  forall value : jsstring,
    normalized (normalizeGroupPath (normalized (normalizeGroupPath value)))
    = normalized (normalizeGroupPath value).

(** * Properties *)

(** ** Strings: trimming, splitting and joining *)

Section StringFacts.

Lemma eqb_spec (a b : jsstring) : reflect (a = b) (JS.eqb a b).
Proof.
  revert b; induction a as [|x a IH]; intros [|y b]; simpl;
    try (constructor; congruence).
  destruct (N.eqb_spec x y) as [->|Hxy]; simpl.
  - destruct (IH b) as [->|Hab]; constructor; congruence.
  - constructor; congruence.
Qed.

Lemma or_else_nil (s : jsstring) : or_else s [] = s.
Proof. destruct s; reflexivity. Qed.

Lemma startsWith_nil (s : jsstring) : startsWith s [] = true.
Proof. destruct s; reflexivity. Qed.

Lemma startsWith_spec (s p : jsstring) :
  startsWith s p = true <-> exists r, s = p ++ r.
Proof.
  revert s. induction p as [|a p IH]; intros s.
  - rewrite startsWith_nil. split; [intros _; now exists s | reflexivity].
  - destruct s as [|b s]; simpl.
    + split; [discriminate | intros [? ?]; discriminate].
    + rewrite andb_true_iff, N.eqb_eq, IH. split.
      * intros [-> [r ->]]. eauto.
      * intros [r [= -> ->]]. eauto.
Qed.

Lemma startsWith_char (s : jsstring) (c : N) :
  startsWith s [c] = true <-> exists r, s = c :: r.
Proof. apply startsWith_spec. Qed.

Lemma includes_spec (s p : jsstring) :
  includes s p = true <-> exists l r, s = l ++ p ++ r.
Proof.
  induction s as [|x s IH]; cbn [includes].
  - rewrite orb_false_r, startsWith_spec. split.
    + intros [r Hr]. exists [], r. exact Hr.
    + intros [l [r H]]. destruct l; [eauto | discriminate].
  - rewrite orb_true_iff, IH, startsWith_spec. split.
    + intros [[r Hr]|[l [r Hr]]].
      * exists [], r. exact Hr.
      * exists (x :: l), r. simpl. now rewrite Hr.
    + intros [[|y l] [r H]].
      * left. eauto.
      * right. injection H as _ H. eauto.
Qed.

Lemma endsWith_char (s : jsstring) (c : N) :
  endsWith s [c] = true <-> exists r, s = r ++ [c].
Proof.
  unfold endsWith. simpl rev. rewrite startsWith_char. split.
  - intros [r Hr]. exists (rev r).
    rewrite <- (rev_involutive s), Hr. reflexivity.
  - intros [r ->]. exists (rev r). now rewrite rev_app_distr.
Qed.

(** *** trimming *)

Lemma trimStart_app_stop (l r : jsstring) (c : N) :
  isWhiteSpace c = false ->
  trimStart (l ++ c :: r) = trimStart l ++ c :: r.
Proof.
  intros Hc. induction l as [|x l IH]; simpl.
  - now rewrite Hc.
  - destruct (isWhiteSpace x); [exact IH | reflexivity].
Qed.

Lemma trimEnd_app_stop (l r : jsstring) (c : N) :
  isWhiteSpace c = false ->
  trimEnd (l ++ c :: r) = l ++ c :: trimEnd r.
Proof.
  intros Hc. unfold trimEnd.
  rewrite rev_app_distr. simpl rev at 1. rewrite <- app_assoc. simpl.
  rewrite trimStart_app_stop by assumption.
  rewrite rev_app_distr. simpl. rewrite rev_involutive.
  now rewrite <- app_assoc.
Qed.

Lemma trimStart_all_space (s : jsstring) :
  Forall (fun c => isWhiteSpace c = true) s -> trimStart s = [].
Proof. induction 1 as [|c s Hc _ IH]; simpl; [|rewrite Hc]; auto. Qed.

Lemma trimStart_incl (s : jsstring) (c : N) : In c (trimStart s) -> In c s.
Proof.
  induction s as [|x s IH]; simpl; auto.
  destruct (isWhiteSpace x); simpl; auto.
Qed.

Lemma trimEnd_incl (s : jsstring) (c : N) : In c (trimEnd s) -> In c s.
Proof.
  unfold trimEnd. intros H%in_rev%trimStart_incl. now apply in_rev.
Qed.

(** *** splitting *)

Variable sep : N.

Lemma split_not_nil (s : jsstring) : split sep s <> [].
Proof.
  destruct s as [|c r]; simpl; [discriminate|].
  destruct (c =? sep)%N; [discriminate|].
  destruct (split sep r); discriminate.
Qed.

Lemma split_no_sep (s : jsstring) :
  Forall (fun seg => ~ In sep seg) (split sep s).
Proof.
  induction s as [|c r IH]; simpl.
  - constructor; auto.
  - destruct (N.eqb_spec c sep) as [->|Hc].
    + constructor; auto.
    + destruct (split sep r) as [|seg segs] eqn:E.
      * now apply split_not_nil in E.
      * inversion IH; subst. constructor; auto. simpl. intuition.
Qed.

Lemma split_chars (s : jsstring) (c : N) (seg : jsstring) :
  In seg (split sep s) -> In c seg -> In c s.
Proof.
  revert seg. induction s as [|x r IH]; simpl; intros seg.
  - intros [<-|[]] [].
  - destruct (x =? sep)%N.
    + intros [<-|H] Hc; [destruct Hc | eauto].
    + destruct (split sep r) as [|seg' segs].
      * intros [<-|[]] [->|[]]. auto.
      * intros [<-|H] Hc.
        -- destruct Hc as [->|Hc]; auto. right. apply (IH seg'); simpl; auto.
        -- right. apply (IH seg); simpl; auto.
Qed.

Lemma split_segment (seg : jsstring) :
  ~ In sep seg -> split sep seg = [seg].
Proof.
  induction seg as [|c r IH]; simpl; auto.
  intros H. destruct (N.eqb_spec c sep) as [->|Hc]; [tauto|].
  rewrite IH by tauto. reflexivity.
Qed.

Lemma split_app_sep (seg rest : jsstring) :
  ~ In sep seg -> split sep (seg ++ sep :: rest) = seg :: split sep rest.
Proof.
  induction seg as [|c r IH]; simpl; intros H.
  - now rewrite N.eqb_refl.
  - destruct (N.eqb_spec c sep) as [->|Hc]; [tauto|].
    rewrite IH by tauto. reflexivity.
Qed.

Lemma split_join (parts : list jsstring) :
  parts <> [] ->
  Forall (fun seg => ~ In sep seg) parts ->
  split sep (join [sep] parts) = parts.
(* for the empty array the join is the empty string, which splits into
   one empty segment *)
Proof.
  intros Hne Hall. destruct parts as [|x rest]; [congruence|]. clear Hne.
  revert x Hall. induction rest as [|y rest IH]; intros x Hall.
  - simpl. apply split_segment. now inversion Hall.
  - change (join [sep] (x :: y :: rest))
      with (x ++ sep :: join [sep] (y :: rest)).
    inversion Hall as [|? ? Hx Hrest]; subst.
    rewrite split_app_sep by assumption.
    now rewrite IH.
Qed.

Lemma join_nil_inv (parts : list jsstring) :
  Forall (fun seg => truthy seg = true) parts ->
  join [sep] parts = [] -> parts = [].
Proof.
  intros Hall. destruct Hall as [|x rest Hx Hrest]; auto.
  destruct x as [|c x]; [discriminate|].
  destruct rest; simpl; discriminate.
Qed.

Lemma join_inj (p q : list jsstring) :
  Forall (fun seg => truthy seg = true) p ->
  Forall (fun seg => truthy seg = true) q ->
  Forall (fun seg => ~ In sep seg) p ->
  Forall (fun seg => ~ In sep seg) q ->
  join [sep] p = join [sep] q -> p = q.
Proof.
  intros Hp Hq Sp Sq E.
  destruct p as [|x p'].
  - symmetry. apply join_nil_inv; auto.
  - destruct q as [|y q'].
    + apply join_nil_inv; auto.
    + rewrite <- (split_join (parts := x :: p')) by (auto; discriminate).
      rewrite E. apply split_join; auto; discriminate.
Qed.

Lemma split_app (l rest : jsstring) :
  split sep (l ++ sep :: rest) = split sep l ++ split sep rest.
Proof.
  induction l as [|c l IH]; simpl.
  - now rewrite N.eqb_refl.
  - destruct (c =? sep)%N; rewrite IH; [reflexivity|].
    destruct (split sep l) as [|seg segs] eqn:E; [|reflexivity].
    now apply split_not_nil in E.
Qed.

(** A separator at either end, or two in a row, shows as an empty
    segment. *)
Lemma split_leading (r : jsstring) : In [] (split sep (sep :: r)).
Proof. simpl. rewrite N.eqb_refl. simpl. auto. Qed.

Lemma split_trailing (l : jsstring) : In [] (split sep (l ++ [sep])).
Proof. rewrite split_app. apply in_or_app. right. simpl. auto. Qed.

Lemma split_doubled (l r : jsstring) :
  In [] (split sep (l ++ [sep; sep] ++ r)).
Proof.
  simpl. rewrite split_app. apply in_or_app. right. apply split_leading.
Qed.

End StringFacts.

(** ** Group paths *)

Section GroupPathFacts.

Lemma normalized_join (value : jsstring) :
  normalized (normalizeGroupPath value) = join [c_slash] (segments value).
Proof. unfold normalizeGroupPath. simpl. now rewrite or_else_nil. Qed.

Lemma segments_truthy (value : jsstring) :
  Forall (fun seg => truthy seg = true) (segments value).
Proof.
  apply Forall_forall. intros seg H.
  apply filter_In in H. tauto.
Qed.

Lemma segments_no_slash (value : jsstring) :
  Forall (fun seg => ~ In c_slash seg) (segments value).
Proof.
  apply Forall_forall. intros seg H.
  apply filter_In in H. destruct H as [H _].
  pose proof (split_no_sep c_slash (replace_backslashes (trim value))) as F.
  rewrite Forall_forall in F. now apply F.
Qed.

Lemma replace_backslashes_none (s : jsstring) :
  ~ In c_backslash (replace_backslashes s).
Proof.
  unfold replace_backslashes. intros H.
  apply in_map_iff in H. destruct H as [x [Hx _]].
  destruct (N.eqb_spec x c_backslash); [discriminate | congruence].
Qed.

Lemma replace_backslashes_id (s : jsstring) :
  ~ In c_backslash s -> replace_backslashes s = s.
Proof.
  unfold replace_backslashes. induction s as [|c s IH]; simpl; auto.
  intros H. destruct (N.eqb_spec c c_backslash); [tauto|].
  rewrite IH by tauto. reflexivity.
Qed.

Lemma segments_no_backslash (value : jsstring) :
  Forall (fun seg => ~ In c_backslash seg) (segments value).
Proof.
  apply Forall_forall. intros seg H Hc.
  apply filter_In in H. destruct H as [H _].
  apply (replace_backslashes_none (trim value)).
  eapply split_chars; eauto.
Qed.

Lemma join_chars (sep c : N) (parts : list jsstring) :
  In c (join [sep] parts) ->
  c = sep \/ exists seg, In seg parts /\ In c seg.
Proof.
  induction parts as [|x rest IH]; [intros []|].
  destruct rest as [|y rest'].
  - simpl. intros H. right. exists x. auto.
  - change (join [sep] (x :: y :: rest'))
      with (x ++ sep :: join [sep] (y :: rest')).
    intros H. apply in_app_or in H. destruct H as [H|[H|H]].
    + right. exists x. simpl. auto.
    + auto.
    + destruct (IH H) as [->|[seg [Hs Hc]]]; auto.
      right. exists seg. simpl in *. tauto.
Qed.

Lemma filter_truthy_id (parts : list jsstring) :
  Forall (fun seg => truthy seg = true) parts -> filter_truthy parts = parts.
Proof.
  induction 1 as [|x rest Hx _ IH]; simpl; auto.
  unfold filter_truthy in *. simpl. now rewrite Hx, IH.
Qed.

Lemma join_truthy (sep : N) (x : jsstring) (rest : list jsstring) :
  truthy x = true -> truthy (join [sep] (x :: rest)) = true.
Proof.
  destruct x as [|c x]; [discriminate|]. intros _.
  destruct rest; reflexivity.
Qed.

(** [splitGroupPath] returns exactly those segments. *)
Lemma splitGroupPath_segments (value : jsstring) :
  splitGroupPath value = segments value.
Proof.
  unfold splitGroupPath. rewrite normalized_join.
  pose proof (segments_truthy value) as T.
  pose proof (segments_no_slash value) as S.
  destruct (segments value) as [|x rest] eqn:E; [reflexivity|].
  rewrite join_truthy by (now inversion T). simpl negb. cbv iota.
  apply split_join; [discriminate | assumption].
Qed.

(** Splitting a normalized path gives back the segments it was joined
    from, unless there were none. *)
Lemma normalized_split (value : jsstring) :
  segments value <> [] ->
  split c_slash (normalized (normalizeGroupPath value)) = segments value.
Proof.
  intros H. rewrite normalized_join.
  apply split_join; [assumption | apply segments_no_slash].
Qed.

Lemma normalized_no_empty_segment (value : jsstring) :
  normalized (normalizeGroupPath value) <> [] ->
  ~ In [] (split c_slash (normalized (normalizeGroupPath value))).
Proof.
  intros Hne Hin.
  destruct (segments value) as [|x rest] eqn:E.
  - rewrite normalized_join, E in Hne. now apply Hne.
  - rewrite normalized_split in Hin by (rewrite E; discriminate).
    pose proof (segments_truthy value) as T. rewrite Forall_forall in T.
    specialize (T [] Hin). discriminate.
Qed.

Lemma normalized_no_backslash (value : jsstring) :
  ~ In c_backslash (normalized (normalizeGroupPath value)).
Proof.
  rewrite normalized_join. intros H.
  apply join_chars in H. destruct H as [H|[seg [Hs Hc]]]; [discriminate|].
  pose proof (segments_no_backslash value) as B.
  rewrite Forall_forall in B. exact (B seg Hs Hc).
Qed.

End GroupPathFacts.

(** C9.  For every input, the normalized path holds no backslash, does not
    start with a slash, does not end with a slash, and holds no two
    slashes in a row. *)
Theorem normalizeGroupPath_shape (value : jsstring) :
  let path := normalized (normalizeGroupPath value) in
  ~ In c_backslash path
  /\ startsWith path (lit "/") = false
  /\ endsWith path (lit "/") = false
  /\ includes path (lit "//") = false.
Proof.
  intros path.
  assert (Hseg : path <> [] -> ~ In [] (split c_slash path))
    by apply normalized_no_empty_segment.
  repeat split.
  - apply normalized_no_backslash.
  - apply not_true_is_false. intros H.
    apply startsWith_char in H. destruct H as [r Hr].
    apply Hseg; [rewrite Hr; discriminate|].
    rewrite Hr. apply split_leading.
  - apply not_true_is_false. intros H.
    apply endsWith_char in H. destruct H as [r Hr].
    apply Hseg; [rewrite Hr; now destruct r|].
    rewrite Hr. apply split_trailing.
  - apply not_true_is_false. intros H.
    apply includes_spec in H. destruct H as [l [r Hr]].
    apply Hseg; [rewrite Hr; now destruct l|].
    rewrite Hr. apply (split_doubled c_slash).
Qed.

(** C6 fails at the input [a/ /]: its normalized path is [a/ ], with a
    trailing space, and the normalized path of that is [a]. *)
Lemma normalizeGroupPath_idempotent_fails :
  normalized (normalizeGroupPath (lit "a/ /")) = lit "a/ "
  /\ normalized (normalizeGroupPath (lit "a/ ")) = lit "a"
  /\ ~ normalizeGroupPath_idempotent.
Proof.
  split; [vm_compute; reflexivity|]. split; [vm_compute; reflexivity|].
  intros H. specialize (H (lit "a/ /")).
  vm_compute in H. discriminate H.
Qed.

(** C6, amended.  Whenever the normalized path of an input neither starts
    nor ends with white space, normalizing it again yields the same
    path. *)
Theorem normalizeGroupPath_idempotent_trimmed (value : jsstring) :
  trim (normalized (normalizeGroupPath value)) = normalized (normalizeGroupPath value) ->
  normalized (normalizeGroupPath (normalized (normalizeGroupPath value)))
  = normalized (normalizeGroupPath value).
Proof.
  intros Htrim.
  rewrite (normalized_join (normalized (normalizeGroupPath value))).
  unfold segments at 1. rewrite Htrim.
  rewrite replace_backslashes_id by apply normalized_no_backslash.
  destruct (segments value) as [|x rest] eqn:E.
  - rewrite normalized_join, E. reflexivity.
  - rewrite normalized_split by (rewrite E; discriminate).
    rewrite filter_truthy_id by apply segments_truthy.
    symmetry. apply normalized_join.
Qed.

Lemma normalizeGroupPath_idempotent_trimmed_witness :
  normalized (normalizeGroupPath (normalized (normalizeGroupPath (lit " \a\\b//c/ "))))
  = lit "a/b/c".
Proof.
  rewrite (normalizeGroupPath_idempotent_trimmed (lit " \a\\b//c/ ")).
  - vm_compute. reflexivity.
  - vm_compute. reflexivity.
Defined.

(** C5.  Whenever the segment list of an input holds a segment equal to
    [.] or [..], at any position, the safety check on that list is false. *)
Theorem isSafeGroupParts_rejects_dots (input : jsstring) :
  In (lit ".") (splitGroupPath input) \/ In (lit "..") (splitGroupPath input) ->
  isSafeGroupParts (splitGroupPath input) = false.
Proof.
  intros H. apply not_true_is_false. intros Hsafe.
  unfold isSafeGroupParts in Hsafe. rewrite forallb_forall in Hsafe.
  destruct H as [H|H]; apply Hsafe in H; vm_compute in H; discriminate H.
Qed.

Lemma isSafeGroupParts_rejects_dots_witness :
  splitGroupPath (lit "a\..//b") = [lit "a"; lit ".."; lit "b"]
  /\ isSafeGroupParts (splitGroupPath (lit "a\..//b")) = false.
Proof.
  split.
  - vm_compute. reflexivity.
  - apply (isSafeGroupParts_rejects_dots (lit "a\..//b")).
    right. vm_compute. right. left. reflexivity.
Defined.

(** C3 fails at its first example: the input groupA/sub does not start
    with proj/groupA, so it is appended whole. *)
Lemma buildFullGroupName_shared_prefix_fails :
  buildFullGroupName (lit "proj/groupA") (lit "groupA/sub")
  = lit "proj/groupA/groupA/sub"
  /\ ~ buildFullGroupName_shared_prefix.
Proof.
  split; [vm_compute; reflexivity|].
  intros [H _]. vm_compute in H. discriminate H.
Qed.

(** C3, amended.  When both normalized paths are non-empty, the result is
    the normalized input alone if it starts with the whole normalized
    base, and otherwise the base, a slash and the input; a slash is put in
    front if either value had one.  So with base proj/groupA the inputs
    proj/groupA/sub and sub both give proj/groupA/sub, and the input
    groupA/sub gives proj/groupA/groupA/sub. *)
Theorem buildFullGroupName_prefix :
  (forall base input : jsstring,
      let b := normalizeGroupPath base in
      let i := normalizeGroupPath input in
      normalized b <> [] -> normalized i <> [] ->
      buildFullGroupName base input
      = (if leadingSlash b || leadingSlash i then lit "/" else [])
          ++ (if startsWith (normalized i) (normalized b)
              then normalized i
              else normalized b ++ lit "/" ++ normalized i))
  /\ buildFullGroupName (lit "proj/groupA") (lit "proj/groupA/sub") = lit "proj/groupA/sub"
  /\ buildFullGroupName (lit "proj/groupA") (lit "sub") = lit "proj/groupA/sub"
  /\ buildFullGroupName (lit "proj/groupA") (lit "groupA/sub")
     = lit "proj/groupA/groupA/sub".
Proof.
  split; [|vm_compute; auto].
  intros base input b i Hb Hi. unfold buildFullGroupName. fold b i.
  destruct (normalized i) as [|ci ni] eqn:Ei; [congruence|].
  destruct (normalized b) as [|cb nb] eqn:Eb; [congruence|].
  cbn [truthy negb andb].
  destruct (startsWith (ci :: ni) (cb :: nb)); cbn [negb];
    destruct (leadingSlash b || leadingSlash i); reflexivity.
Qed.

Lemma buildFullGroupName_prefix_witness :
  buildFullGroupName (lit "/proj\groupA/") (lit "proj/groupA//sub")
  = lit "/proj/groupA/sub".
Proof.
  rewrite (proj1 buildFullGroupName_prefix).
  - vm_compute. reflexivity.
  - vm_compute. discriminate.
  - vm_compute. discriminate.
Defined.

(** ** Local directory of a group *)

Example resolve_sample :
  resolveLocalGroupDir (lit "/ws") (lit "g") (lit "g/a/b") = lit "/ws/a/b"
  /\ Path.join [lit "/ws"; lit ".."; lit "x"; lit "."; lit "y/"] = lit "/x/y/"
  /\ Path.join [lit "a"; lit ".."; lit ".."; lit "b"] = lit "../b"
  /\ buildFullGroupName (lit "proj/groupA") (lit "groupA/sub")
     = lit "proj/groupA/groupA/sub".
Proof. vm_compute. repeat split. Qed.

Section SliceFacts.

Context {A : Type}.

Lemma slice_prefix (l : list A) (n : nat) :
  slice l 0 (Z.of_nat n) = firstn n l.
Proof.
  unfold slice, clamp_index. change (0 <? 0)%Z with false. cbv iota.
  destruct (Z.ltb_spec (Z.of_nat n) 0) as [H|_]; [lia|].
  rewrite (Z.min_l 0) by lia. simpl skipn.
  destruct (Nat.le_gt_cases n (length l)) as [H|H].
  - rewrite Z.min_l by lia. f_equal. lia.
  - rewrite Z.min_r by lia.
    replace (Z.to_nat (Z.of_nat (length l) - 0)) with (length l) by lia.
    rewrite firstn_all. symmetry. apply firstn_all2. lia.
Qed.

Lemma slice_from_suffix (l : list A) (n : nat) :
  slice_from l (Z.of_nat n) = skipn n l.
Proof.
  unfold slice_from, slice, clamp_index.
  destruct (Z.ltb_spec (Z.of_nat n) 0) as [H|_]; [lia|].
  destruct (Z.ltb_spec (Z.of_nat (length l)) 0) as [H|_]; [lia|].
  rewrite (Z.min_l (Z.of_nat (length l))) by lia.
  destruct (Nat.le_gt_cases n (length l)) as [H|H].
  - rewrite Z.min_l by lia. rewrite Nat2Z.id.
    apply firstn_all2. rewrite length_skipn. lia.
  - rewrite Z.min_r by lia. rewrite Nat2Z.id.
    rewrite skipn_all. rewrite skipn_all2 by lia.
    now destruct (Z.to_nat _).
Qed.

Lemma firstn_prefix_iff (p l : list A) :
  firstn (length p) l = p <-> exists rest, l = p ++ rest.
Proof.
  split.
  - intros H. exists (skipn (length p) l).
    rewrite <- H at 1. symmetry. apply firstn_skipn.
  - intros [rest ->]. rewrite firstn_app, firstn_all, Nat.sub_diag.
    simpl. apply app_nil_r.
Qed.

End SliceFacts.

Lemma Forall_firstn_of {A} (P : A -> Prop) (n : nat) (l : list A) :
  Forall P l -> Forall P (firstn n l).
Proof.
  intros H. rewrite <- (firstn_skipn n l) in H.
  apply Forall_app in H. tauto.
Qed.

(** The test of [resolveLocalGroupDir] holds exactly when the segments of
    the base are the first segments of the full path. *)
Lemma base_prefix_test (baseGroupName fullGroupName : jsstring) :
  let baseParts := splitGroupPath baseGroupName in
  let fullParts := splitGroupPath fullGroupName in
  JS.eqb (join (lit "/") (slice fullParts 0 (Z.of_nat (length baseParts))))
         (join (lit "/") baseParts) = true
  <-> exists rest, fullParts = baseParts ++ rest.
Proof.
  intros baseParts fullParts.
  rewrite slice_prefix, <- firstn_prefix_iff.
  destruct (eqb_spec (join (lit "/") (firstn (length baseParts) fullParts))
                     (join (lit "/") baseParts)) as [E|E].
  - split; [intros _|reflexivity].
    unfold baseParts, fullParts in *. rewrite !splitGroupPath_segments in *.
    apply (join_inj c_slash); auto using Forall_firstn_of,
      segments_truthy, segments_no_slash.
  - split; [discriminate|]. intros H. rewrite H in E. now destruct E.
Qed.

(** C4 fails for workspace /ws, base g and full path h/a, which does not
    extend the base: the result is /ws/h/a, not /ws. *)
Lemma resolveLocalGroupDir_root_unless_extends_fails :
  resolveLocalGroupDir (lit "/ws") (lit "g") (lit "h/a") = lit "/ws/h/a"
  /\ ~ resolveLocalGroupDir_root_unless_extends.
Proof.
  split; [vm_compute; reflexivity|].
  intros [_ H]. specialize (H (lit "/ws") (lit "g") (lit "h/a")).
  assert (E : resolveLocalGroupDir (lit "/ws") (lit "g") (lit "h/a") = lit "/ws/h/a")
    by (vm_compute; reflexivity).
  rewrite H in E.
  - vm_compute in E. discriminate E.
  - intros rest. vm_compute. discriminate.
Qed.

(** C4, amended.  When the segments of the base are the first segments of
    the full path, the remaining segments are joined onto the workspace
    root, and the root itself is returned when none remain; when they are
    not, all segments of the full path are joined onto the workspace
    root.  With workspace /ws and base g, the full path g/a/b gives
    /ws/a/b, the full path g gives /ws and the full path h/a gives
    /ws/h/a. *)
Theorem resolveLocalGroupDir_cases :
  (forall workspaceFolder baseGroupName fullGroupName rest,
      splitGroupPath fullGroupName = splitGroupPath baseGroupName ++ rest ->
      resolveLocalGroupDir workspaceFolder baseGroupName fullGroupName
      = match rest with
        | [] => workspaceFolder
        | _ :: _ => Path.join (workspaceFolder :: rest)
        end)
  /\ (forall workspaceFolder baseGroupName fullGroupName,
         (forall rest,
             splitGroupPath fullGroupName <> splitGroupPath baseGroupName ++ rest) ->
         resolveLocalGroupDir workspaceFolder baseGroupName fullGroupName
         = match splitGroupPath fullGroupName with
           | [] => workspaceFolder
           | _ :: _ => Path.join (workspaceFolder :: splitGroupPath fullGroupName)
           end)
  /\ resolveLocalGroupDir (lit "/ws") (lit "g") (lit "g/a/b") = lit "/ws/a/b"
  /\ resolveLocalGroupDir (lit "/ws") (lit "g") (lit "g") = lit "/ws"
  /\ resolveLocalGroupDir (lit "/ws") (lit "g") (lit "h/a") = lit "/ws/h/a".
Proof.
  split; [|split; [|vm_compute; auto]].
  - intros ws base full rest Hext. unfold resolveLocalGroupDir.
    pose proof (base_prefix_test base full) as T. cbv zeta in T.
    destruct (splitGroupPath base) as [|b bs] eqn:Eb.
    + simpl in Hext. rewrite Hext. simpl. now destruct rest.
    + change (0 <? length (b :: bs))%nat with true. cbv iota.
      rewrite (proj2 T) by eauto.
      rewrite slice_from_suffix, Hext, skipn_app, skipn_all, Nat.sub_diag.
      simpl. now destruct rest.
  - intros ws base full Hnot. unfold resolveLocalGroupDir.
    pose proof (base_prefix_test base full) as T. cbv zeta in T.
    destruct (splitGroupPath base) as [|b bs] eqn:Eb.
    + simpl. now destruct (splitGroupPath full).
    + change (0 <? length (b :: bs))%nat with true. cbv iota.
      destruct (JS.eqb _ _).
      * destruct (proj1 T eq_refl) as [rest Hrest]. now apply Hnot in Hrest.
      * now destruct (splitGroupPath full).
Qed.

Lemma resolveLocalGroupDir_cases_witness :
  resolveLocalGroupDir (lit "/ws") (lit "/proj/g/") (lit "proj\g\a\b")
  = lit "/ws/a/b".
Proof.
  rewrite (proj1 resolveLocalGroupDir_cases (lit "/ws") (lit "/proj/g/")
             (lit "proj\g\a\b") [lit "a"; lit "b"]).
  - vm_compute. reflexivity.
  - vm_compute. reflexivity.
Defined.

(** ** The JSON reader *)

Module JSONFacts.
Import JSON.

Lemma skip_ws_length (s : jsstring) : length (skip_ws s) <= length s.
Proof.
  induction s as [|c s IH]; simpl; [lia|].
  destruct (isWs c); simpl; lia.
Qed.

Lemma skip_ws_cons (s r : jsstring) (c : N) :
  skip_ws s = c :: r -> length r < length s.
Proof.
  intros H. pose proof (skip_ws_length s) as L. rewrite H in L. simpl in L. lia.
Qed.

Lemma string_body_length (s acc str rest : jsstring) :
  string_body s acc = Some (str, rest) -> length rest < length s.
Proof.
  remember (length s) as n eqn:En.
  assert (Hn : length s <= n) by lia. clear En.
  revert s acc Hn. induction n as [|n IH]; intros s acc Hn.
  - destruct s; [discriminate | simpl in Hn; lia].
  - destruct s as [|c r]; [discriminate|]. simpl in Hn. cbn [string_body].
    destruct (c =? 34)%N.
    { intros [= _ <-]. simpl. lia. }
    destruct (c =? 92)%N.
    + destruct r as [|e r']; [discriminate|]. simpl in Hn.
      destruct (e =? 117)%N.
      * destruct r' as [|h1 [|h2 [|h3 [|h4 r'']]]]; try discriminate.
        destruct (hex4 h1 h2 h3 h4); [|discriminate].
        intros H. apply IH in H; simpl in *; lia.
      * destruct (escape e); [|discriminate].
        intros H. apply IH in H; simpl in *; lia.
    + destruct (c <? 32)%N; [discriminate|].
      intros H. apply IH in H; simpl in *; lia.
Qed.

Lemma digits_length (s ds rest : jsstring) :
  digits s = (ds, rest) -> length rest <= length s.
Proof.
  revert ds rest. induction s as [|c s IH]; simpl; intros ds rest.
  - intros [= _ <-]. simpl. lia.
  - destruct (isDigit c).
    + destruct (digits s) as [ds' rest'] eqn:E. intros [= _ <-].
      specialize (IH _ _ eq_refl). lia.
    + intros [= _ <-]. simpl. lia.
Qed.

Lemma minus_part_length (s sign rest : jsstring) :
  minus_part s = (sign, rest) -> length rest <= length s.
Proof.
  unfold minus_part. destruct s as [|c r].
  - intros [= _ <-]. lia.
  - destruct (c =? 45)%N; intros [= _ <-]; simpl; lia.
Qed.

Lemma int_part_length (s int rest : jsstring) :
  int_part s = Some (int, rest) -> length rest < length s.
Proof.
  unfold int_part. destruct s as [|d r]; [discriminate|].
  destruct (isDigit d) eqn:Hd; [|discriminate]. cbn [negb].
  destruct (d =? 48)%N.
  - intros [= _ <-]. simpl. lia.
  - cbn [digits]. rewrite Hd.
    destruct (digits r) as [ds rest'] eqn:E. intros [= _ <-].
    apply digits_length in E. simpl. lia.
Qed.

Lemma frac_part_length (s fr rest : jsstring) :
  frac_part s = Some (fr, rest) -> length rest <= length s.
Proof.
  unfold frac_part. destruct s as [|c r].
  - intros [= _ <-]. lia.
  - destruct (c =? 46)%N.
    + destruct (digits r) as [ds rest'] eqn:E.
      destruct ds; [discriminate|]. intros [= _ <-].
      apply digits_length in E. simpl. lia.
    + intros [= _ <-]. lia.
Qed.

Lemma exp_part_length (s ex rest : jsstring) :
  exp_part s = Some (ex, rest) -> length rest <= length s.
Proof.
  unfold exp_part, exp_sign. destruct s as [|c r].
  - intros [= _ <-]. lia.
  - destruct ((c =? 101) || (c =? 69))%N.
    + destruct r as [|sg r'].
      * simpl. discriminate.
      * destruct ((sg =? 43) || (sg =? 45))%N.
        -- destruct (digits r') as [ds rest'] eqn:E.
           destruct ds; [discriminate|]. intros [= _ <-].
           apply digits_length in E. simpl. lia.
        -- destruct (digits (sg :: r')) as [ds rest'] eqn:E.
           destruct ds; [discriminate|]. intros [= _ <-].
           apply digits_length in E. simpl in *. lia.
    + intros [= _ <-]. lia.
Qed.

Lemma number_length (s num rest : jsstring) :
  number s = Some (num, rest) -> length rest < length s.
Proof.
  unfold number.
  destruct (minus_part s) as [sign s1] eqn:E0.
  destruct (int_part s1) as [[int s2]|] eqn:E1; [|discriminate].
  destruct (frac_part s2) as [[fr s3]|] eqn:E2; [|discriminate].
  destruct (exp_part s3) as [[ex s4]|] eqn:E3; [|discriminate].
  intros [= _ <-].
  apply minus_part_length in E0. apply int_part_length in E1.
  apply frac_part_length in E2. apply exp_part_length in E3. lia.
Qed.

Lemma keyword_length (s rest : jsstring) (v : value) :
  keyword s = Some (v, rest) -> length rest < length s.
Proof.
  unfold keyword.
  destruct (startsWith s (lit "true")) eqn:Ht.
  { apply startsWith_spec in Ht. destruct Ht as [r ->].
    intros [= _ <-]. simpl. lia. }
  destruct (startsWith s (lit "false")) eqn:Hf.
  { apply startsWith_spec in Hf. destruct Hf as [r ->].
    intros [= _ <-]. simpl. lia. }
  destruct (startsWith s (lit "null")) eqn:Hn; [|discriminate].
  apply startsWith_spec in Hn. destruct Hn as [r ->].
  intros [= _ <-]. simpl. lia.
Qed.

(** Every reader consumes input. *)
Lemma parse_rest_length (n : nat) :
  (forall s v rest, parse_value n s = Some (v, rest) -> length rest < length s)
  /\ (forall s acc v rest,
         parse_elements n s acc = Some (v, rest) -> length rest < length s)
  /\ (forall s acc v rest,
         parse_members n s acc = Some (v, rest) -> length rest < length s).
Proof.
  induction n as [|n [IHv [IHe IHm]]]; [repeat split; discriminate|].
  repeat split.
  - intros s v rest. cbn [parse_value].
    destruct (skip_ws s) as [|c r] eqn:Es; [discriminate|].
    apply skip_ws_cons in Es.
    destruct (c =? c_lbrace)%N.
    { destruct (skip_ws r) as [|c' r'] eqn:Er; [discriminate|].
      apply skip_ws_cons in Er.
      destruct (c' =? c_rbrace)%N.
      - intros [= _ <-]. lia.
      - intros H. apply IHm in H. lia. }
    destruct (c =? c_lbracket)%N.
    { destruct (skip_ws r) as [|c' r'] eqn:Er; [discriminate|].
      apply skip_ws_cons in Er.
      destruct (c' =? c_rbracket)%N.
      - intros [= _ <-]. lia.
      - intros H. apply IHe in H. lia. }
    destruct (c =? 34)%N.
    { destruct (string_body r []) as [[str rest']|] eqn:Eb; [|discriminate].
      apply string_body_length in Eb. intros [= _ <-]. lia. }
    destruct (keyword (c :: r)) as [[kv krest]|] eqn:Ek.
    { apply keyword_length in Ek. intros [= _ <-]. simpl in Ek. lia. }
    destruct (number (c :: r)) as [[num nrest]|] eqn:En; [|discriminate].
    apply number_length in En. intros [= _ <-]. simpl in En. lia.
  - intros s acc v rest. cbn [parse_elements].
    destruct (parse_value n s) as [[v0 rest0]|] eqn:Ev; [|discriminate].
    apply IHv in Ev.
    destruct (skip_ws rest0) as [|c r] eqn:Er; [discriminate|].
    apply skip_ws_cons in Er.
    destruct (c =? 44)%N.
    + intros H. apply IHe in H. lia.
    + destruct (c =? c_rbracket)%N; [|discriminate]. intros [= _ <-]. lia.
  - intros s acc v rest. cbn [parse_members].
    destruct (skip_ws s) as [|q r] eqn:Es; [discriminate|].
    apply skip_ws_cons in Es.
    destruct (negb (q =? 34)%N); [discriminate|].
    destruct (string_body r []) as [[key r1]|] eqn:Eb; [|discriminate].
    apply string_body_length in Eb.
    destruct (skip_ws r1) as [|colon r2] eqn:E1; [discriminate|].
    apply skip_ws_cons in E1.
    destruct (negb (colon =? 58)%N); [discriminate|].
    destruct (parse_value n r2) as [[v0 r3]|] eqn:Ev; [|discriminate].
    apply IHv in Ev.
    destruct (skip_ws r3) as [|c r4] eqn:E3; [discriminate|].
    apply skip_ws_cons in E3.
    destruct (c =? 44)%N.
    + intros H. apply IHm in H. lia.
    + destruct (c =? c_rbrace)%N; [|discriminate]. intros [= _ <-]. lia.
Qed.

(** Fuel beyond twice the length of the input changes nothing. *)
Lemma fuel_stable (n : nat) :
  (forall s m, 2 * length s < n -> n <= m -> parse_value m s = parse_value n s)
  /\ (forall s acc m, 2 * length s + 1 < n -> n <= m ->
                      parse_elements m s acc = parse_elements n s acc)
  /\ (forall s acc m, 2 * length s + 1 < n -> n <= m ->
                      parse_members m s acc = parse_members n s acc).
Proof.
  induction n as [|n [IHv [IHe IHm]]]; [repeat split; intros; lia|].
  repeat split.
  - intros s [|m] Hs Hm; [lia|]. cbn [parse_value].
    destruct (skip_ws s) as [|c r] eqn:Es; [reflexivity|].
    apply skip_ws_cons in Es.
    destruct (c =? c_lbrace)%N.
    { destruct (skip_ws r) as [|c' r'] eqn:Er; [reflexivity|].
      destruct (c' =? c_rbrace)%N; [reflexivity|]. apply IHm; lia. }
    destruct (c =? c_lbracket)%N; [|reflexivity].
    destruct (skip_ws r) as [|c' r'] eqn:Er; [reflexivity|].
    destruct (c' =? c_rbracket)%N; [reflexivity|]. apply IHe; lia.
  - intros s acc [|m] Hs Hm; [lia|]. cbn [parse_elements].
    rewrite (IHv s m) by lia.
    destruct (parse_value n s) as [[v0 rest0]|] eqn:Ev; [|reflexivity].
    apply (proj1 (parse_rest_length n)) in Ev.
    destruct (skip_ws rest0) as [|c r] eqn:Er; [reflexivity|].
    apply skip_ws_cons in Er.
    destruct (c =? 44)%N; [|reflexivity]. apply IHe; lia.
  - intros s acc [|m] Hs Hm; [lia|]. cbn [parse_members].
    destruct (skip_ws s) as [|q r] eqn:Es; [reflexivity|].
    apply skip_ws_cons in Es.
    destruct (negb (q =? 34)%N); [reflexivity|].
    destruct (string_body r []) as [[key r1]|] eqn:Eb; [|reflexivity].
    apply string_body_length in Eb.
    destruct (skip_ws r1) as [|colon r2] eqn:E1; [reflexivity|].
    apply skip_ws_cons in E1.
    destruct (negb (colon =? 58)%N); [reflexivity|].
    rewrite (IHv r2 m) by lia.
    destruct (parse_value n r2) as [[v0 r3]|] eqn:Ev; [|reflexivity].
    apply (proj1 (parse_rest_length n)) in Ev.
    destruct (skip_ws r3) as [|c r4] eqn:E3; [reflexivity|].
    apply skip_ws_cons in E3.
    destruct (c =? 44)%N; [|reflexivity]. apply IHm; lia.
Qed.

(** The fuel [parse] gives its reader is enough: the reader never stops
    for lack of it, so a syntax error is an error of the text. *)
Lemma parse_fuel_enough (text : jsstring) (n : nat) :
  2 * length text < n ->
  parse_value n text = parse_value (S (2 * length text)) text.
Proof.
  intros H. apply (proj1 (fuel_stable (S (2 * length text)))); lia.
Qed.

End JSONFacts.

Example JSON_parse_samples :
  JSON.parse (litq "{'a': [1, -2.5e+3, true, null, 'x\u0041\n'], 'b': {}} ")
  = Return (JSON.Object
              [(lit "a", JSON.Array [JSON.Number (lit "1");
                                     JSON.Number (lit "-2.5e+3");
                                     JSON.Bool true; JSON.Null;
                                     JSON.Str (lit "xA" ++ [10%N])]);
               (lit "b", JSON.Object [])])
  /\ JSON.parse (lit "[[[[1]]]]")
     = Return (JSON.Array [JSON.Array [JSON.Array [JSON.Array [JSON.Number (lit "1")]]]])
  /\ JSON.parse (lit "[1,]") = Throw SyntaxError
  /\ JSON.parse (lit "01") = Throw SyntaxError
  /\ JSON.parse (lit "{bad}") = Throw SyntaxError
  /\ JSON.parse (lit "[info] {} [done]") = Throw SyntaxError.
Proof. vm_compute. repeat split. Qed.


(** ** Output interpreter *)

Section ScanFacts.

Lemma trim_all_space (s : jsstring) :
  Forall (fun c => isWhiteSpace c = true) s -> trim s = [].
Proof.
  intros H. unfold trim. now rewrite trimStart_all_space.
Qed.

(** Noise around a text that starts and ends with a visible character
    is trimmed on its own. *)
Lemma trim_embedded (pre mid post : jsstring) (a b : N) :
  isWhiteSpace a = false -> isWhiteSpace b = false ->
  trim (pre ++ a :: mid ++ b :: post)
  = trimStart pre ++ a :: mid ++ b :: trimEnd post.
Proof.
  intros Ha Hb. unfold trim.
  rewrite trimStart_app_stop by assumption.
  change (trimStart pre ++ a :: mid ++ b :: post)
    with (trimStart pre ++ (a :: mid) ++ b :: post).
  rewrite app_assoc, trimEnd_app_stop by assumption.
  now rewrite <- app_assoc.
Qed.

Variable c : N.

Lemma indexOf_first (l r : jsstring) :
  ~ In c l -> indexOf (l ++ c :: r) c = Z.of_nat (length l).
Proof.
  induction l as [|x l IH]; intros H.
  - simpl. now rewrite N.eqb_refl.
  - cbn [app indexOf length].
    destruct (N.eqb_spec x c) as [->|_]; [simpl in H; tauto|].
    rewrite IH by (simpl in H; tauto).
    destruct (Z.eqb_spec (Z.of_nat (length l)) (-1)); lia.
Qed.

Lemma lastIndexOf_absent (s : jsstring) : ~ In c s -> lastIndexOf s c = (-1)%Z.
Proof.
  induction s as [|x s IH]; intros H; [reflexivity|].
  cbn [lastIndexOf]. rewrite IH by (simpl in H; tauto). simpl.
  destruct (N.eqb_spec x c) as [->|_]; [simpl in H; tauto | reflexivity].
Qed.

Lemma lastIndexOf_last (l r : jsstring) :
  ~ In c r -> lastIndexOf (l ++ c :: r) c = Z.of_nat (length l).
Proof.
  intros H. induction l as [|x l IH].
  - cbn [app lastIndexOf]. rewrite lastIndexOf_absent by assumption.
    simpl. now rewrite N.eqb_refl.
  - cbn [app lastIndexOf length]. rewrite IH.
    destruct (Z.eqb_spec (Z.of_nat (length l)) (-1)); lia.
Qed.

Lemma indexOf_found (s : jsstring) :
  indexOf s c <> (-1)%Z ->
  exists pre post,
    s = pre ++ c :: post /\ ~ In c pre /\ indexOf s c = Z.of_nat (length pre).
Proof.
  induction s as [|x s IH]; [intros H; now destruct H|].
  cbn [indexOf]. destruct (N.eqb_spec x c) as [->|Hx].
  - intros _. exists [], s. auto.
  - destruct (Z.eqb_spec (indexOf s c) (-1)) as [|Hi]; [intros H; now destruct H|].
    intros _. destruct (IH Hi) as (pre & post & -> & Hpre & ->).
    exists (x :: pre), post. repeat split.
    + simpl. intros [H|H]; auto.
    + cbn [length]. lia.
Qed.

Lemma lastIndexOf_lower (s : jsstring) : (-1 <= lastIndexOf s c)%Z.
Proof.
  induction s as [|x s IH]; cbn [lastIndexOf]; [lia|].
  destruct (Z.eqb_spec (lastIndexOf s c) (-1)); [|lia].
  destruct (x =? c)%N; lia.
Qed.

Lemma lastIndexOf_none (s : jsstring) : lastIndexOf s c = (-1)%Z -> ~ In c s.
Proof.
  induction s as [|x s IH]; [auto|].
  cbn [lastIndexOf]. pose proof (lastIndexOf_lower s) as L.
  destruct (Z.eqb_spec (lastIndexOf s c) (-1)) as [Hi|Hi]; [|lia].
  destruct (N.eqb_spec x c) as [|Hx]; [discriminate|].
  intros _ [H|H]; [auto | now apply IH].
Qed.

Lemma lastIndexOf_found (s : jsstring) :
  lastIndexOf s c <> (-1)%Z ->
  exists pre post,
    s = pre ++ c :: post /\ ~ In c post
    /\ lastIndexOf s c = Z.of_nat (length pre).
Proof.
  induction s as [|x s IH]; [intros H; now destruct H|].
  cbn [lastIndexOf].
  destruct (Z.eqb_spec (lastIndexOf s c) (-1)) as [Hi|Hi].
  - destruct (N.eqb_spec x c) as [->|Hx]; [|intros H; now destruct H].
    intros _. exists [], s. repeat split. now apply lastIndexOf_none.
  - intros _. destruct (IH Hi) as (pre & post & -> & Hpost & ->).
    exists (x :: pre), post. repeat split; [assumption|].
    cbn [length]. lia.
Qed.

End ScanFacts.

Lemma slice_middle {A} (l m r : list A) :
  slice (l ++ m ++ r) (Z.of_nat (length l)) (Z.of_nat (length l + length m)) = m.
Proof.
  unfold slice, clamp_index. rewrite !length_app.
  destruct (Z.ltb_spec (Z.of_nat (length l)) 0) as [H|_]; [lia|].
  destruct (Z.ltb_spec (Z.of_nat (length l + length m)) 0) as [H|_]; [lia|].
  rewrite !Z.min_l by lia. rewrite Nat2Z.id.
  rewrite skipn_app, skipn_all, Nat.sub_diag. simpl.
  replace (Z.to_nat _) with (length m) by lia.
  rewrite firstn_app, firstn_all, Nat.sub_diag. simpl. apply app_nil_r.
Qed.

(** C8.  For every output that is empty or holds white space only, the
    function throws the empty-output error: the first test decides, and
    no value is returned. *)
Theorem parseJsonFromCommandOutput_empty (output : jsstring) :
  Forall (fun c => isWhiteSpace c = true) output ->
  parseJsonFromCommandOutput output = Throw EmptyOutput.
Proof.
  intros H. unfold parseJsonFromCommandOutput.
  rewrite or_else_nil, trim_all_space by assumption. reflexivity.
Qed.

Lemma parseJsonFromCommandOutput_empty_witness :
  parseJsonFromCommandOutput [32; 9; 10; 13; 160; 65279]%N = Throw EmptyOutput
  /\ parseJsonFromCommandOutput [] = Throw EmptyOutput.
Proof.
  split; apply parseJsonFromCommandOutput_empty.
  - repeat constructor.
  - constructor.
Defined.

(** The function, with its tests named. *)
Lemma parseJsonFromCommandOutput_tests (output : jsstring) :
  parseJsonFromCommandOutput output
  = let trimmed := trim output in
    if negb (truthy trimmed) then Throw EmptyOutput
    else if looksWhole trimmed then JSON.parse trimmed
    else if hasSpan (indexOf trimmed c_lbrace) (lastIndexOf trimmed c_rbrace)
    then JSON.parse (slice trimmed (indexOf trimmed c_lbrace)
                           (lastIndexOf trimmed c_rbrace + 1))
    else if hasSpan (indexOf trimmed c_lbracket) (lastIndexOf trimmed c_rbracket)
    then JSON.parse (slice trimmed (indexOf trimmed c_lbracket)
                           (lastIndexOf trimmed c_rbracket + 1))
    else Throw NoJsonFound.
Proof.
  unfold parseJsonFromCommandOutput. rewrite or_else_nil. reflexivity.
Qed.

(** A brace-free prefix cannot supply the opening brace, nor a brace-free
    suffix the closing one. *)
Lemma starts_with_absent (pre rest : jsstring) (a : N) :
  ~ In a pre -> startsWith (pre ++ a :: rest) [a] = true -> pre = [].
Proof.
  intros Hno H. apply startsWith_char in H. destruct H as [r Hr].
  destruct pre as [|x pre]; [reflexivity|].
  injection Hr as -> _. simpl in Hno. tauto.
Qed.

Lemma ends_with_absent (front post : jsstring) (b : N) :
  ~ In b post -> endsWith (front ++ b :: post) [b] = true -> post = [].
Proof.
  intros Hno H. apply endsWith_char in H. destruct H as [r Hr].
  destruct (rev post) as [|x tsop] eqn:E.
  - apply (f_equal (@rev N)) in E. now rewrite rev_involutive in E.
  - exfalso. apply Hno.
    apply (f_equal (@rev N)) in Hr.
    rewrite rev_app_distr in Hr. simpl in Hr.
    rewrite rev_app_distr, E in Hr. simpl in Hr.
    injection Hr as Hx _. apply in_rev. rewrite E, Hx. simpl. auto.
Qed.

(** The scan finds a delimited text whose surroundings hold no opening
    delimiter before it and no closing delimiter after it. *)
Lemma scan_finds (o c : N) (pre body post : jsstring) :
  ~ In o pre -> ~ In c post ->
  let text := pre ++ o :: body ++ c :: post in
  hasSpan (indexOf text o) (lastIndexOf text c) = true
  /\ slice text (indexOf text o) (lastIndexOf text c + 1) = o :: body ++ [c].
Proof.
  intros Hpre Hpost text.
  assert (Hs : indexOf text o = Z.of_nat (length pre))
    by (apply indexOf_first; assumption).
  assert (He : lastIndexOf text c = Z.of_nat (length (pre ++ o :: body))).
  { unfold text.
    change (pre ++ o :: body ++ c :: post)
      with (pre ++ (o :: body) ++ c :: post).
    rewrite app_assoc. apply lastIndexOf_last; assumption. }
  rewrite Hs, He, length_app. cbn [length]. split.
  - unfold hasSpan.
    destruct (Z.eqb_spec (Z.of_nat (length pre)) (-1)); [lia|].
    destruct (Z.eqb_spec (Z.of_nat (length pre + S (length body))) (-1)); [lia|].
    simpl. rewrite Z.gtb_ltb. apply Z.ltb_lt. lia.
  - replace (Z.of_nat (length pre + S (length body)) + 1)%Z
      with (Z.of_nat (length pre + length (o :: body ++ [c])))
      by (cbn [length]; rewrite length_app; simpl; lia).
    unfold text.
    replace (pre ++ o :: body ++ c :: post)
      with (pre ++ (o :: body ++ [c]) ++ post)
      by (simpl; now rewrite <- app_assoc).
    apply slice_middle.
Qed.

(** Conversely, the test of the scan succeeds only on such a text. *)
Lemma hasSpan_found (o c : N) (text : jsstring) :
  hasSpan (indexOf text o) (lastIndexOf text c) = true ->
  exists pre body post,
    text = pre ++ o :: body ++ c :: post /\ ~ In o pre /\ ~ In c post.
Proof.
  unfold hasSpan. intros H.
  apply andb_true_iff in H. destruct H as [H Hgt].
  apply andb_true_iff in H. destruct H as [Hs He].
  apply negb_true_iff, Z.eqb_neq in Hs, He.
  rewrite Z.gtb_ltb in Hgt. apply Z.ltb_lt in Hgt.
  destruct (indexOf_found _ _ Hs) as (p1 & q1 & E1 & N1 & I1).
  destruct (lastIndexOf_found _ _ He) as (p2 & q2 & E2 & N2 & I2).
  rewrite I1, I2 in Hgt.
  assert (E : p1 ++ o :: q1 = p2 ++ c :: q2) by congruence.
  apply app_eq_app in E. destruct E as [l [[Ep _]|[Ep Eq]]].
  - apply (f_equal (@length N)) in Ep. rewrite length_app in Ep. lia.
  - destruct l as [|x body].
    + rewrite app_nil_r in Ep. subst p2. lia.
    + injection Eq as <- Eq. exists p1, body, q2.
      rewrite E1, Eq. auto.
Qed.

(** Whatever the surroundings, as long as they hold no brace and the
    trimmed text is not bracketed, the payload is what reaches
    [JSON.parse]. *)
Lemma embedded_object_reaches_parser (pre body post : jsstring) :
  ~ In c_lbrace pre -> ~ In c_rbrace pre ->
  ~ In c_lbrace post -> ~ In c_rbrace post ->
  let payload := c_lbrace :: body ++ [c_rbrace] in
  let trimmed := trim (pre ++ payload ++ post) in
  startsWith trimmed (lit "[") && endsWith trimmed (lit "]") = false ->
  parseJsonFromCommandOutput (pre ++ payload ++ post) = JSON.parse payload.
Proof.
  intros Hlpre Hrpre Hlpost Hrpost payload trimmed Hbr.
  assert (Et : trimmed
               = trimStart pre ++ c_lbrace :: body ++ c_rbrace :: trimEnd post).
  { unfold trimmed, payload.
    replace (pre ++ (c_lbrace :: body ++ [c_rbrace]) ++ post)
      with (pre ++ c_lbrace :: body ++ c_rbrace :: post)
      by (simpl; now rewrite <- app_assoc).
    apply trim_embedded; reflexivity. }
  assert (Hlpre' : ~ In c_lbrace (trimStart pre))
    by (intros H; apply Hlpre, trimStart_incl, H).
  assert (Hrpost' : ~ In c_rbrace (trimEnd post))
    by (intros H; apply Hrpost, trimEnd_incl, H).
  rewrite parseJsonFromCommandOutput_tests. cbv zeta. fold trimmed.
  assert (Htruthy : truthy trimmed = true)
    by (rewrite Et; now destruct (trimStart pre)).
  rewrite Htruthy. cbn [negb]. unfold looksWhole. rewrite Hbr, orb_false_r.
  destruct (startsWith trimmed (lit "{") && endsWith trimmed (lit "}")) eqn:Hwhole.
  - apply andb_true_iff in Hwhole. destruct Hwhole as [Hs He].
    rewrite Et in Hs. apply starts_with_absent in Hs; [|assumption].
    rewrite Et in He.
    change (trimStart pre ++ c_lbrace :: body ++ c_rbrace :: trimEnd post)
      with (trimStart pre ++ (c_lbrace :: body) ++ c_rbrace :: trimEnd post) in He.
    rewrite app_assoc in He. apply ends_with_absent in He; [|assumption].
    rewrite Et, Hs, He. reflexivity.
  - destruct (scan_finds c_lbrace c_rbrace (trimStart pre) body (trimEnd post)
               Hlpre' Hrpost')
      as [Hspan Hslice].
    rewrite <- Et in Hspan, Hslice. rewrite Hspan, Hslice. reflexivity.
Qed.

(** C1 fails when the noise opens with a bracket and closes with one: the
    whole text is handed to [JSON.parse]. *)
Lemma recovers_embedded_object_fails :
  parseJsonFromCommandOutput (lit "[info] {} [done]") = Throw SyntaxError
  /\ JSON.parse (lit "{}") = Return (JSON.Object [])
  /\ ~ recovers_embedded_object.
Proof.
  split; [vm_compute; reflexivity|]. split; [vm_compute; reflexivity|].
  intros H.
  specialize (H (lit "[info] ") [] (lit " [done]") (JSON.Object [])).
  assert (E : parseJsonFromCommandOutput (lit "[info] {} [done]") = Throw SyntaxError)
    by (vm_compute; reflexivity).
  change (lit "[info] {} [done]")
    with (lit "[info] " ++ (c_lbrace :: [] ++ [c_rbrace]) ++ lit " [done]") in E.
  rewrite H in E; try discriminate E;
    vm_compute; intuition discriminate.
Qed.

(** C1, amended.  For every text made of noise around one JSON object,
    where the noise holds no brace and the trimmed text does not both
    start with an opening bracket and end with a closing bracket, the
    function returns exactly the value of the embedded object. *)
Theorem parseJsonFromCommandOutput_embedded_object
        (pre body post : jsstring) (v : JSON.value) :
  ~ In c_lbrace pre -> ~ In c_rbrace pre ->
  ~ In c_lbrace post -> ~ In c_rbrace post ->
  (let trimmed := trim (pre ++ (c_lbrace :: body ++ [c_rbrace]) ++ post) in
   startsWith trimmed (lit "[") && endsWith trimmed (lit "]") = false) ->
  JSON.parse (c_lbrace :: body ++ [c_rbrace]) = Return v ->
  parseJsonFromCommandOutput (pre ++ (c_lbrace :: body ++ [c_rbrace]) ++ post)
  = Return v.
Proof.
  intros Hlpre Hrpre Hlpost Hrpost Hbr Hv.
  rewrite <- Hv. now apply embedded_object_reaches_parser.
Qed.

Lemma parseJsonFromCommandOutput_embedded_object_witness :
  parseJsonFromCommandOutput
    (lit "[info] build ok " ++ (c_lbrace :: litq "'status': 'success'" ++ [c_rbrace])
         ++ lit " done ")
  = Return (JSON.Object [(lit "status", JSON.Str (lit "success"))]).
Proof.
  apply parseJsonFromCommandOutput_embedded_object;
    vm_compute; intuition discriminate.
Defined.

(** C2 fails at [x {bad} [1]]: the brace substring does not parse, the
    bracket substring does, and the function throws. *)
Lemma array_attempt_after_failed_object_fails :
  parseJsonFromCommandOutput (lit "x {bad} [1]") = Throw SyntaxError
  /\ JSON.parse (lit "{bad}") = Throw SyntaxError
  /\ JSON.parse (lit "[1]") = Return (JSON.Array [JSON.Number (lit "1")])
  /\ ~ array_attempt_after_failed_object.
Proof.
  split; [vm_compute; reflexivity|]. split; [vm_compute; reflexivity|].
  split; [vm_compute; reflexivity|].
  intros H.
  specialize (H (lit "x {bad} [1]")
                (lit "x ") (lit "bad") (lit " [1]")
                (lit "x {bad} ") (lit "1") []
                SyntaxError (JSON.Array [JSON.Number (lit "1")])).
  assert (E : parseJsonFromCommandOutput (lit "x {bad} [1]") = Throw SyntaxError)
    by (vm_compute; reflexivity).
  rewrite H in E; try discriminate E;
    vm_compute; intuition discriminate.
Qed.

(** C2, amended.  In the bracket scan, when some opening brace of the
    trimmed text is followed by a closing brace, the function returns
    whatever [JSON.parse] gives on the substring from the first opening
    brace to the last closing brace, a syntax error included; the
    substring from the first opening bracket to the last closing bracket
    is tried only when no opening brace is followed by a closing brace,
    and then the function returns what [JSON.parse] gives on the bracket
    substring. *)
Theorem parseJsonFromCommandOutput_scan (output : jsstring) :
  looksWhole (trim output) = false ->
  (forall pre body post,
      trim output = pre ++ c_lbrace :: body ++ c_rbrace :: post ->
      ~ In c_lbrace pre -> ~ In c_rbrace post ->
      parseJsonFromCommandOutput output
      = JSON.parse (c_lbrace :: body ++ [c_rbrace]))
  /\ ((forall pre body post,
          trim output <> pre ++ c_lbrace :: body ++ c_rbrace :: post) ->
      forall pre body post,
        trim output = pre ++ c_lbracket :: body ++ c_rbracket :: post ->
        ~ In c_lbracket pre -> ~ In c_rbracket post ->
        parseJsonFromCommandOutput output
        = JSON.parse (c_lbracket :: body ++ [c_rbracket])).
Proof.
  intros Hw. rewrite parseJsonFromCommandOutput_tests. cbv zeta.
  rewrite Hw. split.
  - intros pre body post Et Hpre Hpost.
    destruct (scan_finds c_lbrace c_rbrace pre body post Hpre Hpost)
      as [Hspan Hslice].
    rewrite <- Et in Hspan, Hslice. rewrite Hspan, Hslice.
    rewrite Et. now destruct pre.
  - intros Hnone pre body post Et Hpre Hpost.
    destruct (hasSpan (indexOf (trim output) c_lbrace)
                      (lastIndexOf (trim output) c_rbrace)) eqn:Hobj.
    { apply hasSpan_found in Hobj.
      destruct Hobj as (p & b & q & E & _). now apply Hnone in E. }
    destruct (scan_finds c_lbracket c_rbracket pre body post Hpre Hpost)
      as [Hspan Hslice].
    rewrite <- Et in Hspan, Hslice. rewrite Hspan, Hslice.
    rewrite Et. now destruct pre.
Qed.

Lemma parseJsonFromCommandOutput_scan_witness :
  parseJsonFromCommandOutput (lit "rows: [1, 2] } end")
  = Return (JSON.Array [JSON.Number (lit "1"); JSON.Number (lit "2")])
  /\ parseJsonFromCommandOutput (lit "x {bad} [1]") = JSON.parse (lit "{bad}").
Proof.
  split.
  - transitivity (JSON.parse (c_lbracket :: lit "1, 2" ++ [c_rbracket]));
      [|vm_compute; reflexivity].
    apply (proj2 (parseJsonFromCommandOutput_scan (lit "rows: [1, 2] } end")
                    eq_refl))
      with (pre := lit "rows: ") (post := lit " } end").
    + intros pre body post E.
      assert (H : In c_lbrace (trim (lit "rows: [1, 2] } end")))
        by (rewrite E; apply in_or_app; right; left; reflexivity).
      vm_compute in H. intuition discriminate.
    + vm_compute. reflexivity.
    + vm_compute. intuition discriminate.
    + vm_compute. intuition discriminate.
  - apply (proj1 (parseJsonFromCommandOutput_scan (lit "x {bad} [1]") eq_refl)
                 (lit "x ") (lit "bad") (lit " [1]"));
      vm_compute; intuition discriminate.
Defined.

(** ** Workflow identifier *)

Module RegExpFacts.
Import RegExp.

Section Soundness.

Variable Q : jsstring -> Prop.

Lemma capture_step_trans (a b c : option jsstring) :
  capture_step Q a b -> capture_step Q b c -> capture_step Q a c.
Proof.
  unfold capture_step. intros [->|Hb] [->|Hc]; auto.
Qed.

Lemma firstn_consumed (w s' : jsstring) :
  firstn (length (w ++ s') - length s') (w ++ s') = w.
Proof.
  rewrite length_app, Nat.add_sub, firstn_app, firstn_all, Nat.sub_diag.
  simpl. apply app_nil_r.
Qed.

(** When the matcher succeeds, the continuation was called on the
    rest of the input after a word the expression matches. *)
Lemma exec_at_sound (X : Type) (r : regex) :
  captures_only Q r ->
  forall (s : jsstring) (cap : option jsstring)
         (k : jsstring -> option jsstring -> option X) (x : X),
    exec_at r s cap k = Some x ->
    exists w s' cap',
      s = w ++ s' /\ Matches r w /\ capture_step Q cap cap'
      /\ k s' cap' = Some x.
Proof.
  induction r as [|test|r1 IH1 r2 IH2|r1 IH1|r1 IH1]; intros Hcap s cap k x H.
  - exists [], s, cap. repeat split; auto using MEps. now left.
  - destruct s as [|c s']; [discriminate|]. simpl in H.
    destruct (test c) eqn:Ht; [|discriminate].
    exists [c], s', cap. repeat split; auto using MChr. now left.
  - destruct Hcap as [Hc1 Hc2]. simpl in H.
    apply (IH1 Hc1) in H. destruct H as (w1 & s1 & cap1 & -> & M1 & C1 & H).
    apply (IH2 Hc2) in H. destruct H as (w2 & s2 & cap2 & -> & M2 & C2 & H).
    exists (w1 ++ w2), s2, cap2. rewrite app_assoc.
    repeat split; eauto using MSeq, capture_step_trans.
  - simpl in Hcap. cbn [exec_at] in H.
    revert H. generalize (length s) as n. intros n. revert s cap.
    induction n as [|n IHn]; intros s cap H.
    + exists [], s, cap. repeat split; auto using MStarStop. now left.
    + match type of H with
      | match ?e with _ => _ end = _ => destruct e as [x0|] eqn:E
      end.
      * injection H as ->.
        apply (IH1 Hcap) in E.
        destruct E as (w1 & s1 & cap1 & -> & M1 & C1 & E).
        destruct (length s1 <? length (w1 ++ s1))%nat; [|discriminate].
        apply IHn in E.
        destruct E as (w2 & s2 & cap2 & -> & M2 & C2 & E).
        exists (w1 ++ w2), s2, cap2. rewrite app_assoc.
        repeat split; eauto using MStarStep, capture_step_trans.
      * exists [], s, cap. repeat split; auto using MStarStop. now left.
  - destruct Hcap as [Hc1 HQ]. simpl in H.
    apply (IH1 Hc1) in H. destruct H as (w & s' & cap' & -> & M & C & H).
    rewrite firstn_consumed in H.
    exists w, s', (Some w). repeat split; auto using MGroup.
    right. eauto.
Qed.

Lemma search_capture (r : regex) (s : jsstring) (cap : option jsstring) :
  captures_only Q r ->
  search r s = Some cap -> capture_step Q None cap.
Proof.
  intros Hcap. induction s as [|c s IH]; simpl.
  - destruct (exec_at r [] None _) eqn:E; [|discriminate].
    intros [= ->]. apply exec_at_sound in E; [|exact Hcap].
    destruct E as (_ & _ & cap' & _ & _ & C & [= ->]). exact C.
  - destruct (exec_at r (c :: s) None _) eqn:E; [|exact IH].
    intros [= ->]. apply exec_at_sound in E; [|exact Hcap].
    destruct E as (_ & _ & cap' & _ & _ & C & [= ->]). exact C.
Qed.

End Soundness.

Lemma Matches_Chr_inv (test : N -> bool) (w : jsstring) :
  Matches (Chr test) w -> exists c, w = [c] /\ test c = true.
Proof. inversion 1; subst. eauto. Qed.

Lemma Matches_Star_Chr (test : N -> bool) (w : jsstring) :
  Matches (Star (Chr test)) w -> Forall (fun c => test c = true) w.
Proof.
  intros H. remember (Star (Chr test)) as r eqn:Er.
  induction H as [| | |r0|r0 w1 w2 H1 _ H2 IH2|]; try discriminate.
  - constructor.
  - injection Er as ->.
    apply Matches_Chr_inv in H1. destruct H1 as [c [-> Hc]].
    simpl. constructor; auto.
Qed.

Lemma Matches_plus_Chr (test : N -> bool) (w : jsstring) :
  Matches (plus (Chr test)) w ->
  w <> [] /\ Forall (fun c => test c = true) w.
Proof.
  unfold plus. inversion 1 as [| |r1 r2 w1 w2 H1 H2| | |]; subst.
  apply Matches_Chr_inv in H1. destruct H1 as [c [-> Hc]].
  apply Matches_Star_Chr in H2.
  split; [discriminate | constructor; assumption].
Qed.

Lemma canonicalize_inv (a c : N) :
  canonicalize a = canonicalize c ->
  (c = a \/ (97 <= a <= 122 /\ c + 32 = a) \/ (97 <= c <= 122 /\ c = a + 32))%N.
Proof.
  unfold canonicalize.
  destruct (N.leb_spec 97 a), (N.leb_spec a 122),
           (N.leb_spec 97 c), (N.leb_spec c 122); simpl; lia.
Qed.

End RegExpFacts.

Lemma identifier_class_hex (c : N) :
  existsb (fun a => (RegExp.canonicalize a =? RegExp.canonicalize c)%N)
          (RegExp.range 97 102 ++ RegExp.range 48 57 ++ [45%N]) = true ->
  isHexOrHyphen c = true.
Proof.
  intros H. apply existsb_exists in H. destruct H as [a [Ha E]].
  apply N.eqb_eq, RegExpFacts.canonicalize_inv in E.
  assert (Hrange : (97 <= a <= 102 \/ 48 <= a <= 57 \/ a = 45)%N).
  { vm_compute in Ha. repeat (destruct Ha as [<-|Ha]; [lia|]). destruct Ha. }
  unfold isHexOrHyphen.
  repeat rewrite orb_true_iff. repeat rewrite andb_true_iff.
  rewrite !N.leb_le, N.eqb_eq. lia.
Qed.

(** C10.  Every identifier [extractWorkflowId] returns is a non-empty
    string of hexadecimal digits, of either case, and hyphens. *)
Theorem extractWorkflowId_hex (fileContent id : jsstring) :
  extractWorkflowId fileContent = Some id ->
  id <> [] /\ Forall (fun c => isHexOrHyphen c = true) id.
Proof.
  unfold extractWorkflowId.
  destruct (RegExp.search workflowIdPattern fileContent) as [[v|]|] eqn:E;
    try discriminate.
  destruct (truthy v); [|discriminate]. intros [= ->].
  apply RegExpFacts.search_capture
    with (Q := fun w => w <> [] /\ Forall (fun c => isHexOrHyphen c = true) w) in E.
  - destruct E as [E|[w [[= ->] Hw]]]; [discriminate | exact Hw].
  - unfold workflowIdPattern. simpl. repeat split; auto;
      match goal with
      | H : RegExp.Matches _ _ |- _ =>
          apply RegExpFacts.Matches_plus_Chr in H; destruct H as [Hne Hall]
      end.
    + exact Hne.
    + revert Hall. apply Forall_impl.
      intros c Hc. apply identifier_class_hex. exact Hc.
Qed.

Lemma extractWorkflowId_hex_witness :
  extractWorkflowId
    (litq "name = 'x'; Workflow_ID = '1234abcd-5678-90EF-aaaa-bbbbccccdddd' # id")
  = Some (lit "1234abcd-5678-90EF-aaaa-bbbbccccdddd")
  /\ Forall (fun c => isHexOrHyphen c = true)
            (lit "1234abcd-5678-90EF-aaaa-bbbbccccdddd").
Proof.
  assert (E : extractWorkflowId
                (litq "name = 'x'; Workflow_ID = '1234abcd-5678-90EF-aaaa-bbbbccccdddd' # id")
              = Some (lit "1234abcd-5678-90EF-aaaa-bbbbccccdddd"))
    by (vm_compute; reflexivity).
  split; [exact E | exact (proj2 (extractWorkflowId_hex _ E))].
Defined.

(** ** Build and push *)

Module OrchestratorFacts.
Import Orchestrator.

Lemma commands_run_app (a b : list event) :
  commands_run (a ++ b) = commands_run a ++ commands_run b.
Proof.
  induction a as [|e a IH]; [reflexivity|].
  destruct e; simpl; now rewrite IH.
Qed.

Section Sequencing.

Variable path_dirname : jsstring -> jsstring.
Variable path_basename : jsstring -> option jsstring -> jsstring.
Variable path_delimiter : jsstring.
Variable processPATH : jsstring.
Variable host : Host.

Local Abbreviation execute :=
  (executePy2RocketCommand path_dirname path_delimiter processPATH host).
Local Abbreviation buildLine := (buildCommandLine path_basename host).
Local Abbreviation pushLine := (pushCommandLine path_basename host).

(** One call extends the events, and runs its command line once, or
    not at all when no workspace folder is open. *)
Lemma execute_events (command filePath : jsstring) (workingDir : option jsstring)
      (tr : list event) :
  exists evs,
    snd (execute command filePath workingDir tr) = tr ++ evs
    /\ commands_run evs
       = match workspacePath host with
         | Some _ => [command]
         | None => []
         end.
Proof.
  unfold executePy2RocketCommand.
  destruct (workspacePath host) as [ws|].
  - unfold bind, emit, history, when, ret, reject.
    set (out := child host _ command _).
    destruct (truthy (stdout out)), (truthy (stderr out)), (error out);
      cbn [snd]; repeat rewrite <- app_assoc;
      (eexists; split; [reflexivity | reflexivity]).
  - unfold bind, emit, reject. cbn [snd]. eexists; split; reflexivity.
Qed.

(** A call rejects exactly when no workspace folder is open or the
    child process reports an error: a non-zero exit or a failure to
    start. *)
Lemma execute_outcome (command filePath : jsstring) (workingDir : option jsstring)
      (tr : list event) :
  fst (execute command filePath workingDir tr)
  = match workspacePath host with
    | None => Rejected NoWorkspaceFolder
    | Some _ =>
        let cwd := or_else (match workingDir with Some d => d | None => [] end)
                           (path_dirname filePath) in
        match error (child host (tr ++ announce command filePath) command cwd) with
        | Some message => Rejected (ExecError message)
        | None => Resolved tt
        end
    end.
Proof.
  unfold executePy2RocketCommand.
  destruct (workspacePath host) as [ws|]; [|reflexivity].
  unfold bind, emit, history, when, ret, reject, announce.
  repeat rewrite <- app_assoc. cbn [app].
  set (out := child host _ command _).
  destruct (truthy (stdout out)), (truthy (stderr out)), (error out);
    reflexivity.
Qed.

Lemma command_lines_differ (filePath : jsstring) :
  buildLine filePath <> pushLine filePath.
Proof.
  unfold buildCommandLine, pushCommandLine.
  intros H. apply app_inv_head in H. vm_compute in H. discriminate H.
Qed.

(** C7.  When the build step rejects, because no workspace folder is
    open or because the build process exits with an error or cannot
    be started, the command ends without the push command line ever
    being handed to the shell: the only command line run, if any, is
    the build one. *)
Theorem push_skipped_after_failed_build
        (filePath : jsstring) (tr0 : list event) :
  activeEditorFile host = Some filePath ->
  endsWith filePath (lit ".py") = true ->
  fst (execute (buildLine filePath) filePath (Some (path_dirname filePath))
               ((tr0 ++ [SaveDocument])
                  ++ [AppendLine (lit "Paso 1/2: Building...")]))
  <> Resolved tt ->
  exists evs,
    snd (buildAndPushCommand path_dirname path_basename path_delimiter
                             processPATH host tr0)
    = tr0 ++ evs
    /\ ~ In (pushLine filePath) (commands_run evs)
    /\ commands_run evs
       = match workspacePath host with
         | Some _ => [buildLine filePath]
         | None => []
         end.
Proof.
  intros Hactive Hpy Hrej.
  destruct (execute_events (buildLine filePath) filePath
              (Some (path_dirname filePath))
              ((tr0 ++ [SaveDocument])
                 ++ [AppendLine (lit "Paso 1/2: Building...")]))
    as [evs1 [Hevs Hrun]].
  unfold buildAndPushCommand, getActiveFilePath.
  rewrite Hactive, Hpy. cbn [negb].
  unfold bind at 1. unfold ret at 1. unfold bind at 1. unfold emit at 1.
  unfold try_catch. unfold bind at 1. unfold emit at 1. unfold bind at 1.
  destruct (executePy2RocketCommand _ _ _ _ _ _ _ _) as [o tr1] eqn:E.
  cbn [fst snd] in Hrej, Hevs. subst tr1.
  destruct o as [[]|e]; [now destruct Hrej|].
  unfold emit. cbn [snd].
  exists ([SaveDocument; AppendLine (lit "Paso 1/2: Building...")]
            ++ evs1 ++ [ConsoleError (lit "Error en build and push:")]).
  split; [now repeat rewrite <- app_assoc|].
  assert (Hcmds : commands_run
                    ([SaveDocument; AppendLine (lit "Paso 1/2: Building...")]
                       ++ evs1 ++ [ConsoleError (lit "Error en build and push:")])
                  = commands_run evs1).
  { rewrite !commands_run_app. simpl. apply app_nil_r. }
  rewrite Hcmds, Hrun. split; [|reflexivity].
  destruct (workspacePath host); [|intros []].
  intros [H|[]]. now apply command_lines_differ in H.
Qed.

End Sequencing.

Lemma push_skipped_after_failed_build_witness :
  exists evs,
    snd (buildAndPushCommand sample_dirname sample_basename (lit ":") []
                             failing_host [])
    = [] ++ evs
    /\ ~ In (pushCommandLine sample_basename failing_host (lit "/ws/report.py"))
            (commands_run evs)
    /\ commands_run evs = [litq "python -m py2rocket build 'report.py'"].
Proof.
  apply (@push_skipped_after_failed_build sample_dirname sample_basename
           (lit ":") [] failing_host (lit "/ws/report.py") []).
  - reflexivity.
  - reflexivity.
  - vm_compute. discriminate.
Defined.

(** When the build resolves, the push follows it. *)
Example push_follows_successful_build :
  commands_run
    (snd (buildAndPushCommand sample_dirname sample_basename (lit ":") []
                              succeeding_host []))
  = [litq "python -m py2rocket build 'report.py'";
     litq "python -m py2rocket push 'report.json'"].
Proof. vm_compute. reflexivity. Qed.

End OrchestratorFacts.

(** * Further properties *)

(** ** Escaping and quoting *)

Section ReplaceFacts.

Variable c : N.
Variable rep : jsstring.

Lemma replaceAll_app (a b : jsstring) :
  replaceAll c rep (a ++ b) = replaceAll c rep a ++ replaceAll c rep b.
Proof. unfold replaceAll. apply flat_map_app. Qed.

Lemma replaceAll_flat_map (f : N -> jsstring) (s : jsstring) :
  replaceAll c rep (flat_map f s) = flat_map (fun x => replaceAll c rep (f x)) s.
Proof.
  induction s as [|x s IH]; [reflexivity|].
  simpl. now rewrite replaceAll_app, IH.
Qed.

Lemma replaceAll_other (x : N) : x <> c -> replaceAll c rep [x] = [x].
Proof.
  intros H. unfold replaceAll. simpl.
  apply N.eqb_neq in H. now rewrite H.
Qed.

End ReplaceFacts.

Lemma escapeChar_passes (x : N) :
  replaceAll 39 (lit "&#39;")
    (replaceAll 34 (lit "&quot;")
      (replaceAll 62 (lit "&gt;")
        (replaceAll 60 (lit "&lt;")
          (if (x =? 38)%N then lit "&amp;" else [x]))))
  = escapeChar x.
Proof.
  unfold escapeChar.
  destruct (N.eqb_spec x 38) as [->|H38]; [vm_compute; reflexivity|].
  destruct (N.eqb_spec x 60) as [->|H60]; [vm_compute; reflexivity|].
  rewrite (replaceAll_other (lit "&lt;") H60).
  destruct (N.eqb_spec x 62) as [->|H62]; [vm_compute; reflexivity|].
  rewrite (replaceAll_other (lit "&gt;") H62).
  destruct (N.eqb_spec x 34) as [->|H34]; [vm_compute; reflexivity|].
  rewrite (replaceAll_other (lit "&quot;") H34).
  destruct (N.eqb_spec x 39) as [->|H39]; [vm_compute; reflexivity|].
  apply replaceAll_other, H39.
Qed.

Lemma escapeHtml_flat_map (value : jsstring) :
  escapeHtml value = flat_map escapeChar value.
Proof.
  unfold escapeHtml. rewrite or_else_nil.
  unfold replaceAll at 5. rewrite !replaceAll_flat_map.
  apply flat_map_ext. exact escapeChar_passes.
Qed.

(** X1.  The five replacements of [escapeHtml], made one after the other,
    escape each character of the value exactly once: the ampersands the
    first pass writes are not escaped again, and the result is the
    concatenation of the entities of the characters. *)
Theorem escapeHtml_each_character (value : jsstring) :
  escapeHtml value = flat_map escapeChar value.
Proof. exact (escapeHtml_flat_map value). Qed.

Lemma escapeChar_no_markup (x c : N) :
  In c (escapeChar x) -> c <> 60%N /\ c <> 62%N /\ c <> 34%N /\ c <> 39%N.
Proof.
  unfold escapeChar.
  destruct (N.eqb_spec x 38); [vm_compute; intuition (subst; discriminate)|].
  destruct (N.eqb_spec x 60); [vm_compute; intuition (subst; discriminate)|].
  destruct (N.eqb_spec x 62); [vm_compute; intuition (subst; discriminate)|].
  destruct (N.eqb_spec x 34); [vm_compute; intuition (subst; discriminate)|].
  destruct (N.eqb_spec x 39); [vm_compute; intuition (subst; discriminate)|].
  intros [<-|[]]. auto.
Qed.

(** X2.  The text [escapeHtml] returns holds no angle bracket and no
    quote of either kind. *)
Theorem escapeHtml_no_markup (value : jsstring) (c : N) :
  In c (escapeHtml value) -> c <> 60%N /\ c <> 62%N /\ c <> 34%N /\ c <> 39%N.
Proof.
  rewrite escapeHtml_flat_map. intros H.
  apply in_flat_map in H. destruct H as [x [_ H]].
  exact (escapeChar_no_markup x c H).
Qed.

Lemma escapeHtml_no_markup_witness :
  In 38%N (escapeHtml (litq "<a href='x'>&</a>"))
  /\ 38%N <> 60%N.
Proof.
  assert (H : In 38%N (escapeHtml (litq "<a href='x'>&</a>")))
    by (vm_compute; auto).
  split; [exact H | exact (proj1 (escapeHtml_no_markup _ _ H))].
Defined.

Lemma escapeChar_cases (x : N) :
  (x = 38%N /\ escapeChar x = lit "&amp;")
  \/ (x = 60%N /\ escapeChar x = lit "&lt;")
  \/ (x = 62%N /\ escapeChar x = lit "&gt;")
  \/ (x = 34%N /\ escapeChar x = lit "&quot;")
  \/ (x = 39%N /\ escapeChar x = lit "&#39;")
  \/ (x <> 38%N /\ escapeChar x = [x]).
Proof.
  unfold escapeChar.
  destruct (N.eqb_spec x 38); [left; auto|right].
  destruct (N.eqb_spec x 60); [left; auto|right].
  destruct (N.eqb_spec x 62); [left; auto|right].
  destruct (N.eqb_spec x 34); [left; auto|right].
  destruct (N.eqb_spec x 39); [left; auto|right].
  auto.
Qed.

(** The entities form a prefix code, so a concatenation of entities can
    be read in one way only. *)
Lemma flat_map_escapeChar_injective (a b : jsstring) :
  flat_map escapeChar a = flat_map escapeChar b -> a = b.
Proof.
  revert b. induction a as [|x a IH]; intros [|y b]; simpl; intros H.
  - reflexivity.
  - destruct (escapeChar_cases y)
      as [[_ E]|[[_ E]|[[_ E]|[[_ E]|[[_ E]|[_ E]]]]]];
      rewrite E in H; discriminate H.
  - destruct (escapeChar_cases x)
      as [[_ E]|[[_ E]|[[_ E]|[[_ E]|[[_ E]|[_ E]]]]]];
      rewrite E in H; discriminate H.
  - destruct (escapeChar_cases x)
      as [[Hx Ex]|[[Hx Ex]|[[Hx Ex]|[[Hx Ex]|[[Hx Ex]|[Hx Ex]]]]]];
      destruct (escapeChar_cases y)
        as [[Hy Ey]|[[Hy Ey]|[[Hy Ey]|[[Hy Ey]|[[Hy Ey]|[Hy Ey]]]]]];
      rewrite Ex, Ey in H; cbn in H;
      try discriminate H;
      try (injection H as H; subst; f_equal; now apply IH);
      try (injection H as H0 H; congruence).
Qed.

(** X3.  [escapeHtml] loses nothing: two values with the same escaped text
    are the same value. *)
Theorem escapeHtml_injective (a b : jsstring) :
  escapeHtml a = escapeHtml b -> a = b.
Proof.
  rewrite !escapeHtml_flat_map. apply flat_map_escapeChar_injective.
Qed.

Lemma escapeHtml_injective_witness :
  escapeHtml (lit "a&b") = lit "a&amp;b" /\ lit "a&b" = lit "a&b".
Proof.
  split; [vm_compute; reflexivity|].
  apply escapeHtml_injective. reflexivity.
Defined.

Module QuotingFacts.
Import Orchestrator.

Lemma doubled_quotes_injective (a b : jsstring) :
  replaceAll dquote [dquote; dquote] a = replaceAll dquote [dquote; dquote] b ->
  a = b.
Proof.
  unfold replaceAll.
  revert b. induction a as [|x a IH]; intros [|y b]; simpl; intros H.
  - reflexivity.
  - destruct (y =? dquote)%N; discriminate H.
  - destruct (x =? dquote)%N; discriminate H.
  - destruct (N.eqb_spec x dquote) as [->|Hx];
      destruct (N.eqb_spec y dquote) as [->|Hy]; cbn in H.
    + injection H as H. f_equal. now apply IH.
    + injection H as H0 H. now destruct Hy.
    + injection H as H0 H. now destruct Hx.
    + injection H as -> H. f_equal. now apply IH.
Qed.

(** X4.  [shellQuote] loses nothing: two values with the same quoted text
    are the same value. *)
Theorem shellQuote_injective (a b : jsstring) :
  shellQuote a = shellQuote b -> a = b.
Proof.
  unfold shellQuote, quoted. rewrite !or_else_nil.
  intros H. injection H as H. apply app_inv_tail in H.
  now apply doubled_quotes_injective.
Qed.

Lemma shellQuote_injective_witness :
  shellQuote (litq "say 'hi'") = dquote :: lit "say " ++ [dquote; dquote]
                                   ++ lit "hi" ++ [dquote; dquote; dquote]
  /\ litq "say 'hi'" = litq "say 'hi'".
Proof.
  split; [vm_compute; reflexivity|].
  apply shellQuote_injective. reflexivity.
Defined.

Lemma count_doubled (s : jsstring) :
  count_occ N.eq_dec (replaceAll dquote [dquote; dquote] s) dquote
  = 2 * count_occ N.eq_dec s dquote.
Proof.
  unfold replaceAll. induction s as [|x s IH]; [reflexivity|].
  cbn [flat_map]. rewrite count_occ_app, IH.
  destruct (N.eqb_spec x dquote) as [->|Hx].
  - rewrite (count_occ_cons_eq N.eq_dec s eq_refl).
    change (count_occ N.eq_dec [dquote; dquote] dquote) with 2. lia.
  - rewrite (count_occ_cons_neq N.eq_dec s Hx).
    cbn [count_occ]. destruct (N.eq_dec x dquote); [contradiction|]. lia.
Qed.

(** X5.  The text [shellQuote] returns starts and ends with a double
    quote and holds, between the two, twice the double quotes of the
    value: the quotes of the result are always balanced. *)
Theorem shellQuote_balanced (value : jsstring) :
  exists inner,
    shellQuote value = dquote :: inner ++ [dquote]
    /\ count_occ N.eq_dec inner dquote = 2 * count_occ N.eq_dec value dquote
    /\ Nat.Even (count_occ N.eq_dec (shellQuote value) dquote).
Proof.
  exists (replaceAll dquote [dquote; dquote] value).
  unfold shellQuote, quoted. rewrite or_else_nil.
  split; [reflexivity|]. split; [apply count_doubled|].
  exists (S (count_occ N.eq_dec value dquote)).
  rewrite (count_occ_cons_eq N.eq_dec _ eq_refl), count_occ_app, count_doubled.
  change (count_occ N.eq_dec [dquote] dquote) with 1. lia.
Qed.

Lemma includes_char (s : jsstring) (c : N) :
  includes s [c] = true <-> In c s.
Proof.
  rewrite includes_spec. split.
  - intros [l [r ->]]. apply in_or_app. right. left. reflexivity.
  - intros H. apply in_split in H. destruct H as [l [r ->]]. now exists l, r.
Qed.

(** X6.  [quoteIfNeeded] is idempotent, and whatever it returns with a
    space in it starts with a double quote. *)
Theorem quoteIfNeeded_idempotent (value : jsstring) :
  quoteIfNeeded (quoteIfNeeded value) = quoteIfNeeded value
  /\ (In 32%N (quoteIfNeeded value) ->
      startsWith (quoteIfNeeded value) [dquote] = true).
Proof.
  unfold quoteIfNeeded.
  destruct value as [|c value]; [split; [reflexivity | intros []]|].
  cbn [truthy negb].
  destruct (includes (c :: value) (lit " ")) eqn:Hs;
    destruct (startsWith (c :: value) [dquote]) eqn:Hq; cbn [andb negb].
  - rewrite Hs, Hq. auto.
  - unfold quoted. cbn [truthy negb startsWith].
    rewrite N.eqb_refl. cbn [andb negb]. rewrite andb_false_r.
    split; [reflexivity|]. intros _. now destruct (value ++ [dquote]).
  - rewrite Hs. cbn [andb]. split; [reflexivity|].
    intros H. apply (includes_char (c :: value) 32) in H.
    change (lit " ") with [32%N] in Hs. congruence.
  - rewrite Hs. cbn [andb]. split; [reflexivity|].
    intros H. apply (includes_char (c :: value) 32) in H.
    change (lit " ") with [32%N] in Hs. congruence.
Qed.

Lemma quoteIfNeeded_idempotent_witness :
  quoteIfNeeded (lit "C:\Program Files\python.exe")
  = quoted (lit "C:\Program Files\python.exe")
  /\ startsWith (quoteIfNeeded (lit "C:\Program Files\python.exe")) [dquote] = true.
Proof.
  split; [vm_compute; reflexivity|].
  apply (proj2 (quoteIfNeeded_idempotent (lit "C:\Program Files\python.exe"))).
  vm_compute. tauto.
Defined.

End QuotingFacts.

(** ** The interpreter and the two-step commands *)

Module CommandFacts.
Import Orchestrator.

Lemma quoteIfNeeded_truthy (value : jsstring) :
  truthy value = true -> truthy (quoteIfNeeded value) = true.
Proof.
  unfold quoteIfNeeded. intros H. rewrite H. cbn [negb].
  now destruct (includes value (lit " ") && negb (startsWith value [dquote])).
Qed.

(** X7.  [getPythonCommand] never returns the empty string, and what it
    returns is decided by the configured path alone: whether a virtual
    environment exists in the workspace, or a workspace at all, makes no
    difference. *)
Theorem getPythonCommand_configured (host host' : Host) :
  getPythonCommand host <> []
  /\ (configPythonPath host = configPythonPath host' ->
      getPythonCommand host = getPythonCommand host').
Proof.
  unfold getPythonCommand. split.
  - destruct (configPythonPath host) as [[|c p]|]; cbn [or_else truthy];
      try (destruct (findVenvPython host); discriminate).
    destruct (JS.eqb (c :: p) (lit "python")); cbn [andb negb].
    + destruct (findVenvPython host); discriminate.
    + intros H. pose proof (quoteIfNeeded_truthy (c :: p) eq_refl) as T.
      rewrite H in T. discriminate T.
  - intros <-.
    destruct (truthy _ && negb _); [reflexivity|].
    now destruct (findVenvPython host), (findVenvPython host').
Qed.

Lemma getPythonCommand_configured_witness :
  getPythonCommand failing_host = lit "python"
  /\ getPythonCommand succeeding_host = getPythonCommand failing_host.
Proof.
  split; [vm_compute; reflexivity|].
  apply (proj2 (getPythonCommand_configured succeeding_host failing_host)).
  reflexivity.
Defined.

Section TwoSteps.

Variable path_dirname : jsstring -> jsstring.
Variable path_basename : jsstring -> option jsstring -> jsstring.
Variable path_delimiter : jsstring.
Variable processPATH : jsstring.
Variable host : Host.

Local Abbreviation execute :=
  (executePy2RocketCommand path_dirname path_delimiter processPATH host).
Local Abbreviation buildLine := (buildCommandLine path_basename host).
Local Abbreviation pushLine := (pushCommandLine path_basename host).

(** With a workspace folder open, a call hands its command line to the
    shell exactly once, whatever the outcome. *)
Lemma execute_runs_once (ws command filePath : jsstring)
      (workingDir : option jsstring) (tr : list event) :
  workspacePath host = Some ws ->
  commands_run (snd (execute command filePath workingDir tr))
  = commands_run tr ++ [command].
Proof.
  intros Hws.
  destruct (OrchestratorFacts.execute_events path_dirname path_delimiter
              processPATH host command filePath workingDir tr)
    as [evs [E R]].
  rewrite E, OrchestratorFacts.commands_run_app, R, Hws. reflexivity.
Qed.

(** X8.  With a workspace folder open and a Python file active, when the
    build step resolves [buildAndPushCommand] hands exactly two command
    lines to the shell, the build one and then the push one, whatever the
    push does: nothing is run after a failed push. *)
Theorem push_follows_resolved_build
        (ws filePath : jsstring) (tr0 : list event) :
  workspacePath host = Some ws ->
  activeEditorFile host = Some filePath ->
  endsWith filePath (lit ".py") = true ->
  fst (execute (buildLine filePath) filePath (Some (path_dirname filePath))
               ((tr0 ++ [SaveDocument])
                  ++ [AppendLine (lit "Paso 1/2: Building...")]))
  = Resolved tt ->
  commands_run
    (snd (buildAndPushCommand path_dirname path_basename path_delimiter
                              processPATH host tr0))
  = commands_run tr0 ++ [buildLine filePath; pushLine filePath].
Proof.
  intros Hws Hactive Hpy Hres.
  pose proof (execute_runs_once (buildLine filePath) filePath
                (Some (path_dirname filePath))
                ((tr0 ++ [SaveDocument])
                   ++ [AppendLine (lit "Paso 1/2: Building...")]) Hws) as Hb.
  unfold buildAndPushCommand, getActiveFilePath.
  rewrite Hactive, Hpy. cbn [negb].
  unfold bind at 1. unfold ret at 1. unfold bind at 1. unfold emit at 1.
  unfold try_catch. unfold bind at 1. unfold emit at 1. unfold bind at 1.
  destruct (executePy2RocketCommand _ _ _ _ _ _ _ _) as [o tr1] eqn:E.
  cbn [fst snd] in Hres, Hb. subst o.
  unfold bind at 1. unfold emit at 1. unfold bind at 1.
  pose proof (execute_runs_once (pushLine filePath) filePath
                (Some (path_dirname filePath))
                (tr1 ++ [AppendLine (newline :: lit "Paso 2/2: Pushing to Rocket...")])
                Hws) as Hp.
  destruct (execute (pushLine filePath) filePath (Some (path_dirname filePath))
              (tr1 ++ [AppendLine (newline :: lit "Paso 2/2: Pushing to Rocket...")]))
    as [o2 tr2] eqn:E2.
  cbn [snd] in Hp.
  assert (Hall : commands_run tr2
                 = commands_run tr0 ++ [buildLine filePath; pushLine filePath]).
  { rewrite Hp, OrchestratorFacts.commands_run_app, Hb.
    rewrite !OrchestratorFacts.commands_run_app. simpl.
    rewrite !app_nil_r, <- app_assoc. reflexivity. }
  destruct o2 as [[]|e]; unfold emit; cbn [snd];
    rewrite OrchestratorFacts.commands_run_app, Hall; simpl; apply app_nil_r.
Qed.

(** X9.  [buildAndPushSilentCommand] and [buildAndPushCommand] hand the
    same command lines to the shell, in the same order, and end alike, in
    every host and after any events: they differ in the text of the
    closing notice only. *)
Theorem silent_runs_the_same (tr0 : list event) :
  let loud := buildAndPushCommand path_dirname path_basename path_delimiter
                                  processPATH host tr0 in
  let silent := buildAndPushSilentCommand path_dirname path_basename
                                          path_delimiter processPATH host tr0 in
  fst silent = fst loud
  /\ commands_run (snd silent) = commands_run (snd loud)
  /\ length (snd silent) = length (snd loud).
Proof.
  unfold buildAndPushCommand, buildAndPushSilentCommand, getActiveFilePath.
  destruct (activeEditorFile host) as [filePath|];
    [|repeat split; reflexivity].
  destruct (negb (endsWith filePath (lit ".py")));
    [repeat split; reflexivity|].
  unfold bind, ret, try_catch, emit.
  destruct (execute (buildLine filePath) filePath (Some (path_dirname filePath))
              ((tr0 ++ [SaveDocument])
                 ++ [AppendLine (lit "Paso 1/2: Building...")]))
    as [[[]|e1] tr1]; [|repeat split; reflexivity].
  destruct (execute (pushLine filePath) filePath (Some (path_dirname filePath))
              (tr1 ++ [AppendLine (newline :: lit "Paso 2/2: Pushing to Rocket...")]))
    as [[[]|e2] tr2]; [|repeat split; reflexivity].
  cbn [fst snd]. split; [reflexivity|].
  rewrite !OrchestratorFacts.commands_run_app, !length_app. split; reflexivity.
Qed.

End TwoSteps.

Lemma push_follows_resolved_build_witness :
  commands_run
    (snd (buildAndPushCommand sample_dirname sample_basename (lit ":") []
                              succeeding_host []))
  = [] ++ [buildCommandLine sample_basename succeeding_host (lit "/ws/report.py");
           pushCommandLine sample_basename succeeding_host (lit "/ws/report.py")].
Proof.
  apply (@push_follows_resolved_build sample_dirname sample_basename
           (lit ":") [] succeeding_host (lit "/ws") (lit "/ws/report.py") []);
    reflexivity.
Defined.

End CommandFacts.

(** ** More on the output interpreter *)

Section TrimFacts.

Lemma trimStart_space_app (ws s : jsstring) :
  Forall (fun c => isWhiteSpace c = true) ws ->
  trimStart (ws ++ s) = trimStart s.
Proof.
  induction 1 as [|c ws Hc _ IH]; [reflexivity|].
  simpl. now rewrite Hc.
Qed.

Lemma trimEnd_app_space (s ws : jsstring) :
  Forall (fun c => isWhiteSpace c = true) ws ->
  trimEnd (s ++ ws) = trimEnd s.
Proof.
  intros H. unfold trimEnd. rewrite rev_app_distr.
  rewrite trimStart_space_app; [reflexivity|].
  apply Forall_rev, H.
Qed.

Lemma trimStart_app_cases (s t : jsstring) :
  trimStart (s ++ t) = trimStart s ++ t
  \/ (trimStart s = [] /\ trimStart (s ++ t) = trimStart t).
Proof.
  induction s as [|x s IH]; [right; auto|].
  simpl. destruct (isWhiteSpace x); [exact IH | left; reflexivity].
Qed.

(** White space around a text does not change what [trim] returns. *)
Lemma trim_surrounded (ws1 s ws2 : jsstring) :
  Forall (fun c => isWhiteSpace c = true) ws1 ->
  Forall (fun c => isWhiteSpace c = true) ws2 ->
  trim (ws1 ++ s ++ ws2) = trim s.
Proof.
  intros H1 H2. unfold trim. rewrite trimStart_space_app by assumption.
  destruct (trimStart_app_cases s ws2) as [->|[E ->]].
  - now apply trimEnd_app_space.
  - rewrite E, (trimStart_all_space H2). reflexivity.
Qed.

End TrimFacts.

(** X10.  White space around the output, line ends included, never
    changes what [parseJsonFromCommandOutput] returns or throws. *)
Theorem parseJsonFromCommandOutput_surrounded (ws1 output ws2 : jsstring) :
  Forall (fun c => isWhiteSpace c = true) ws1 ->
  Forall (fun c => isWhiteSpace c = true) ws2 ->
  parseJsonFromCommandOutput (ws1 ++ output ++ ws2)
  = parseJsonFromCommandOutput output.
Proof.
  intros H1 H2. rewrite !parseJsonFromCommandOutput_tests. cbv zeta.
  now rewrite trim_surrounded.
Qed.

Lemma parseJsonFromCommandOutput_surrounded_witness :
  parseJsonFromCommandOutput ([13; 10; 9]%N ++ lit "log [1] end" ++ [32; 10]%N)
  = parseJsonFromCommandOutput (lit "log [1] end").
Proof.
  apply parseJsonFromCommandOutput_surrounded; repeat constructor.
Defined.

Section SpanFacts.

Variables o c : N.

Lemma indexOf_upper (l r : jsstring) :
  (0 <= indexOf (l ++ o :: r) o <= Z.of_nat (length l))%Z.
Proof.
  induction l as [|x l IH]; cbn [app indexOf length].
  - rewrite N.eqb_refl. lia.
  - destruct (x =? o)%N; [lia|].
    destruct (Z.eqb_spec (indexOf (l ++ o :: r) o) (-1)); lia.
Qed.

Lemma lastIndexOf_least (l r : jsstring) :
  (Z.of_nat (length l) <= lastIndexOf (l ++ c :: r) c)%Z.
Proof.
  induction l as [|x l IH]; cbn [app lastIndexOf length].
  - pose proof (lastIndexOf_lower c r).
    destruct (Z.eqb_spec (lastIndexOf r c) (-1)); [|lia].
    rewrite N.eqb_refl. lia.
  - destruct (Z.eqb_spec (lastIndexOf (l ++ c :: r) c) (-1)); lia.
Qed.

(** The test of the scan succeeds exactly when some opening delimiter is
    followed by a closing one. *)
Lemma hasSpan_iff (text : jsstring) :
  hasSpan (indexOf text o) (lastIndexOf text c) = true
  <-> exists pre body post, text = pre ++ o :: body ++ c :: post.
Proof.
  split.
  - intros H. apply hasSpan_found in H.
    destruct H as (pre & body & post & E & _). eauto.
  - intros (pre & body & post & ->).
    pose proof (indexOf_upper pre (body ++ c :: post)) as Hi.
    pose proof (lastIndexOf_least (pre ++ o :: body) post) as Hl.
    rewrite <- app_assoc in Hl. cbn [app] in Hl.
    rewrite length_app in Hl. cbn [length] in Hl.
    unfold hasSpan.
    destruct (Z.eqb_spec (indexOf (pre ++ o :: body ++ c :: post) o) (-1)); [lia|].
    destruct (Z.eqb_spec (lastIndexOf (pre ++ o :: body ++ c :: post) c) (-1));
      [lia|].
    simpl. rewrite Z.gtb_ltb. apply Z.ltb_lt. lia.
Qed.

Lemma whole_has_span (text : jsstring) :
  o <> c ->
  startsWith text [o] && endsWith text [c] = true ->
  exists pre body post, text = pre ++ o :: body ++ c :: post.
Proof.
  intros Hoc H. apply andb_true_iff in H. destruct H as [Hs He].
  apply startsWith_char in Hs. destruct Hs as [r ->].
  apply endsWith_char in He. destruct He as [r' He].
  destruct r' as [|x r'].
  - injection He as -> _. now destruct Hoc.
  - injection He as <- ->. now exists [], r', [].
Qed.

Lemma whole_shape (text : jsstring) :
  o <> c ->
  startsWith text [o] && endsWith text [c] = true ->
  exists body, text = o :: body ++ [c].
Proof.
  intros Hoc H. apply andb_true_iff in H. destruct H as [Hs He].
  apply startsWith_char in Hs. destruct Hs as [r ->].
  apply endsWith_char in He. destruct He as [r' He].
  destruct r' as [|x r'].
  - injection He as -> _. now destruct Hoc.
  - injection He as <- ->. now exists r'.
Qed.

End SpanFacts.

Lemma JSON_parse_outcome (text : jsstring) :
  (exists v, JSON.parse text = Return v) \/ JSON.parse text = Throw SyntaxError.
Proof.
  unfold JSON.parse.
  destruct (JSON.parse_value _ text) as [[v rest]|]; [|now right].
  destruct (JSON.skip_ws rest); [left; eauto | now right].
Qed.

(** X11.  [parseJsonFromCommandOutput] throws its no-JSON error exactly
    when the trimmed output is not empty and holds neither an opening
    brace followed by a closing brace nor an opening bracket followed by a
    closing bracket. *)
Theorem parseJsonFromCommandOutput_no_json (output : jsstring) :
  parseJsonFromCommandOutput output = Throw NoJsonFound
  <-> trim output <> []
      /\ (forall pre body post,
             trim output <> pre ++ c_lbrace :: body ++ c_rbrace :: post)
      /\ (forall pre body post,
             trim output <> pre ++ c_lbracket :: body ++ c_rbracket :: post).
Proof.
  rewrite parseJsonFromCommandOutput_tests. cbv zeta.
  set (t := trim output).
  assert (Hparse : forall text, JSON.parse text <> Throw NoJsonFound).
  { intros text H. destruct (JSON_parse_outcome text) as [[v E]|E];
      rewrite E in H; discriminate H. }
  pose proof (hasSpan_iff c_lbrace c_rbrace t) as Hobj.
  pose proof (hasSpan_iff c_lbracket c_rbracket t) as Harr.
  split.
  - intros H.
    destruct t as [|x t'] eqn:Et; [discriminate H|]. cbn [truthy negb] in H.
    destruct (looksWhole (x :: t')); [now apply Hparse in H|].
    destruct (hasSpan (indexOf (x :: t') c_lbrace) _) eqn:H1;
      [now apply Hparse in H|].
    destruct (hasSpan (indexOf (x :: t') c_lbracket) _) eqn:H2;
      [now apply Hparse in H|].
    split; [discriminate|]. split.
    + intros pre body post E.
      assert (F : false = true) by (apply Hobj; eauto). discriminate F.
    + intros pre body post E.
      assert (F : false = true) by (apply Harr; eauto). discriminate F.
  - intros (Hne & Hno1 & Hno2).
    destruct t as [|x t'] eqn:Et; [now destruct Hne|]. cbn [truthy negb].
    assert (Hw : looksWhole (x :: t') = false).
    { apply not_true_is_false. intros Hw. unfold looksWhole in Hw.
      apply orb_true_iff in Hw. destruct Hw as [Hw|Hw].
      - apply (@whole_has_span c_lbrace c_rbrace) in Hw; [|discriminate].
        destruct Hw as (p & b & q & E). now apply Hno1 in E.
      - apply (@whole_has_span c_lbracket c_rbracket) in Hw; [|discriminate].
        destruct Hw as (p & b & q & E). now apply Hno2 in E. }
    rewrite Hw.
    destruct (hasSpan (indexOf (x :: t') c_lbrace) _) eqn:H1.
    { destruct (proj1 Hobj eq_refl) as (p & b & q & E). now apply Hno1 in E. }
    destruct (hasSpan (indexOf (x :: t') c_lbracket) _) eqn:H2.
    { destruct (proj1 Harr eq_refl) as (p & b & q & E). now apply Hno2 in E. }
    reflexivity.
Qed.

(** X12.  Whatever value [parseJsonFromCommandOutput] returns is what
    [JSON.parse] gives on one piece of the trimmed output: a piece that
    runs from an opening brace to a closing brace, or from an opening
    bracket to a closing bracket. *)
Theorem parseJsonFromCommandOutput_from_piece (output : jsstring) (v : JSON.value) :
  parseJsonFromCommandOutput output = Return v ->
  exists pre body post o c,
    trim output = pre ++ o :: body ++ c :: post
    /\ ((o = c_lbrace /\ c = c_rbrace) \/ (o = c_lbracket /\ c = c_rbracket))
    /\ JSON.parse (o :: body ++ [c]) = Return v.
Proof.
  rewrite parseJsonFromCommandOutput_tests. cbv zeta.
  set (t := trim output).
  destruct (truthy t); cbn [negb]; [|discriminate].
  destruct (looksWhole t) eqn:Hw.
  - unfold looksWhole in Hw. apply orb_true_iff in Hw. intros Hv.
    destruct Hw as [Hw|Hw].
    + apply (@whole_shape c_lbrace c_rbrace) in Hw; [|discriminate].
      destruct Hw as [body E]. rewrite E in Hv. rewrite E.
      exists [], body, [], c_lbrace, c_rbrace. auto.
    + apply (@whole_shape c_lbracket c_rbracket) in Hw; [|discriminate].
      destruct Hw as [body E]. rewrite E in Hv. rewrite E.
      exists [], body, [], c_lbracket, c_rbracket. auto.
  - destruct (hasSpan (indexOf t c_lbrace) _) eqn:H1.
    + intros Hv. apply hasSpan_found in H1.
      destruct H1 as (pre & body & post & E & Npre & Npost).
      destruct (scan_finds c_lbrace c_rbrace pre body post Npre Npost)
        as [_ Hslice].
      rewrite <- E in Hslice. rewrite Hslice in Hv.
      exists pre, body, post, c_lbrace, c_rbrace. auto.
    + destruct (hasSpan (indexOf t c_lbracket) _) eqn:H2; [|discriminate].
      intros Hv. apply hasSpan_found in H2.
      destruct H2 as (pre & body & post & E & Npre & Npost).
      destruct (scan_finds c_lbracket c_rbracket pre body post Npre Npost)
        as [_ Hslice].
      rewrite <- E in Hslice. rewrite Hslice in Hv.
      exists pre, body, post, c_lbracket, c_rbracket. auto.
Qed.

Lemma parseJsonFromCommandOutput_from_piece_witness :
  exists pre body post o c,
    trim (lit " log [1, 2] end ") = pre ++ o :: body ++ c :: post
    /\ ((o = c_lbrace /\ c = c_rbrace) \/ (o = c_lbracket /\ c = c_rbracket))
    /\ JSON.parse (o :: body ++ [c])
       = Return (JSON.Array [JSON.Number (lit "1"); JSON.Number (lit "2")]).
Proof.
  apply parseJsonFromCommandOutput_from_piece. vm_compute. reflexivity.
Defined.

(** ** More on group paths *)

(** X13.  Joining the segments [splitGroupPath] returns with slashes
    gives back the normalized path: splitting loses nothing, also for the
    empty path, which has no segments. *)
Theorem splitGroupPath_join (value : jsstring) :
  join (lit "/") (splitGroupPath value) = normalized (normalizeGroupPath value).
Proof.
  rewrite splitGroupPath_segments. symmetry. apply normalized_join.
Qed.

(** X14.  The segment list of any value passes [isSafeGroupParts] exactly
    when none of its segments is [.] or [..]: an empty segment, the third
    thing the check rejects, never comes out of [splitGroupPath]. *)
Theorem isSafeGroupParts_iff (value : jsstring) :
  isSafeGroupParts (splitGroupPath value) = true
  <-> ~ In (lit ".") (splitGroupPath value)
      /\ ~ In (lit "..") (splitGroupPath value).
Proof.
  unfold isSafeGroupParts. rewrite forallb_forall. split.
  - intros H. split; intros Hin; apply H in Hin; vm_compute in Hin;
      discriminate Hin.
  - intros [H1 H2] part Hin.
    pose proof (segments_truthy value) as T. rewrite Forall_forall in T.
    rewrite splitGroupPath_segments in Hin. rewrite (T part Hin).
    rewrite <- splitGroupPath_segments in Hin.
    destruct (eqb_spec part (lit ".")) as [->|_]; [now destruct H1|].
    destruct (eqb_spec part (lit "..")) as [->|_]; [now destruct H2|].
    reflexivity.
Qed.

Section SeparatorFacts.

Lemma trimStart_replace (s : jsstring) :
  trimStart (replace_backslashes s) = replace_backslashes (trimStart s).
Proof.
  unfold replace_backslashes.
  induction s as [|c s IH]; [reflexivity|].
  cbn [List.map trimStart].
  destruct (N.eqb_spec c c_backslash) as [->|Hc].
  - reflexivity.
  - destruct (isWhiteSpace c); [exact IH|].
    cbn [List.map]. apply N.eqb_neq in Hc. now rewrite Hc.
Qed.

Lemma trim_replace (s : jsstring) :
  trim (replace_backslashes s) = replace_backslashes (trim s).
Proof.
  unfold trim, trimEnd. rewrite trimStart_replace.
  unfold replace_backslashes at 1. rewrite <- map_rev.
  fold (replace_backslashes (rev (trimStart s))).
  rewrite trimStart_replace. unfold replace_backslashes. now rewrite map_rev.
Qed.

Lemma replace_backslashes_twice (s : jsstring) :
  replace_backslashes (replace_backslashes s) = replace_backslashes s.
Proof. apply replace_backslashes_id, replace_backslashes_none. Qed.

End SeparatorFacts.

(** X15.  Backslashes and slashes are interchangeable as separators: a
    value and the same value with every backslash written as a slash have
    the same normalized path and the same segments. *)
Theorem normalizeGroupPath_separators (value : jsstring) :
  normalized (normalizeGroupPath (replace_backslashes value))
  = normalized (normalizeGroupPath value)
  /\ splitGroupPath (replace_backslashes value) = splitGroupPath value.
Proof.
  assert (E : segments (replace_backslashes value) = segments value).
  { unfold segments. now rewrite trim_replace, replace_backslashes_twice. }
  split.
  - now rewrite !normalized_join, E.
  - now rewrite !splitGroupPath_segments.
Qed.

(** ** More on the workflow identifier *)

Module MatcherFacts.
Import RegExp.

Lemma search_unfold (r : regex) (s : jsstring) :
  search r s
  = match exec_at r s None (fun _ cap => Some cap) with
    | Some cap => Some cap
    | None => match s with
              | [] => None
              | _ :: s' => search r s'
              end
    end.
Proof. destruct s; reflexivity. Qed.

Section Matching.

Context {X : Type}.

(** A literal matches a word that equals it up to the case of letters. *)
Lemma exec_literal (p w rest : jsstring) (cap : option jsstring)
      (k : jsstring -> option jsstring -> option X) :
  List.map canonicalize w = List.map canonicalize p ->
  exec_at (literal_i p) (w ++ rest) cap k = k rest cap.
Proof.
  revert w. induction p as [|a p IH]; intros [|c w] E; try discriminate E.
  - reflexivity.
  - injection E as Ec E. cbn [literal_i exec_at chr_i app].
    rewrite Ec, N.eqb_refl. now apply IH.
Qed.

Lemma exec_seq (r1 r2 : regex) (s : jsstring) (cap : option jsstring)
      (k : jsstring -> option jsstring -> option X) :
  exec_at (Seq r1 r2) s cap k
  = exec_at r1 s cap (fun s' cap' => exec_at r2 s' cap' k).
Proof. reflexivity. Qed.

Lemma exec_class (members : list N) (c : N) (s : jsstring)
      (cap : option jsstring) (k : jsstring -> option jsstring -> option X) :
  existsb (fun a => (canonicalize a =? canonicalize c)%N) members = true ->
  exec_at (class_i members) (c :: s) cap k = k s cap.
Proof. intros H. cbn [exec_at class_i]. now rewrite H. Qed.

Lemma exec_chr (a c : N) (s : jsstring)
      (cap : option jsstring) (k : jsstring -> option jsstring -> option X) :
  canonicalize c = canonicalize a ->
  exec_at (chr_i a) (c :: s) cap k = k s cap.
Proof. intros H. cbn [exec_at chr_i]. now rewrite H, N.eqb_refl. Qed.

Lemma exec_chr_fails (a c : N) (s : jsstring)
      (cap : option jsstring) (k : jsstring -> option jsstring -> option X) :
  canonicalize c <> canonicalize a ->
  exec_at (chr_i a) (c :: s) cap k = None.
Proof.
  intros H. cbn [exec_at chr_i]. apply N.eqb_neq in H. now rewrite H.
Qed.

(** A greedy star over a character test reads the whole run when what
    follows the run can be matched. *)
Lemma exec_star_run (test : N -> bool) (run rest : jsstring)
      (cap : option jsstring)
      (k : jsstring -> option jsstring -> option X) (x : X) :
  Forall (fun c => test c = true) run ->
  stops test rest ->
  k rest cap = Some x ->
  exec_at (Star (Chr test)) (run ++ rest) cap k = Some x.
Proof.
  intros Hrun Hstop Hk. cbn [exec_at].
  assert (Hn : length run <= length (run ++ rest))
    by (rewrite length_app; lia).
  revert Hn. generalize (length (run ++ rest)) as n. intros n. revert n.
  induction Hrun as [|c run Hc _ IH]; intros n Hn.
  - destruct n as [|n]; [exact Hk|].
    destruct rest as [|d rest]; simpl; [exact Hk|].
    simpl in Hstop. rewrite Hstop. exact Hk.
  - destruct n as [|n]; [simpl in Hn; lia|].
    cbn [app]. simpl. rewrite Hc.
    rewrite IH by (simpl in Hn; lia).
    assert (L : (length (run ++ rest) <? S (length (run ++ rest)))%nat = true)
      by (apply Nat.ltb_lt; lia).
    now rewrite L.
Qed.

(** A captured run of one or more characters is captured whole. *)
Lemma exec_group_run (test : N -> bool) (c : N) (run rest : jsstring)
      (cap : option jsstring)
      (k : jsstring -> option jsstring -> option X) (x : X) :
  test c = true ->
  Forall (fun c => test c = true) run ->
  stops test rest ->
  k rest (Some (c :: run)) = Some x ->
  exec_at (Group (plus (Chr test))) ((c :: run) ++ rest) cap k = Some x.
Proof.
  intros Hc Hrun Hstop Hk.
  cbn [exec_at plus app]. rewrite Hc.
  apply exec_star_run; [assumption | assumption|].
  change (c :: run ++ rest) with ((c :: run) ++ rest).
  now rewrite RegExpFacts.firstn_consumed.
Qed.

End Matching.

Lemma hex_in_class (c : N) :
  isHexOrHyphen c = true ->
  existsb (fun a => (canonicalize a =? canonicalize c)%N)
          (range 97 102 ++ range 48 57 ++ [45%N]) = true.
Proof.
  unfold isHexOrHyphen. intros H.
  apply existsb_exists.
  repeat rewrite orb_true_iff in H. repeat rewrite andb_true_iff in H.
  rewrite !N.leb_le, N.eqb_eq in H.
  assert (Hm : forall a, (97 <= a <= 102 \/ 48 <= a <= 57 \/ a = 45)%N ->
                         In a (range 97 102 ++ range 48 57 ++ [45%N])).
  { intros a Ha. vm_compute.
    assert (Hcases : (a = 97 \/ a = 98 \/ a = 99 \/ a = 100 \/ a = 101 \/ a = 102
                      \/ a = 48 \/ a = 49 \/ a = 50 \/ a = 51 \/ a = 52 \/ a = 53
                      \/ a = 54 \/ a = 55 \/ a = 56 \/ a = 57 \/ a = 45)%N) by lia.
    intuition. }
  destruct H as [[[H|H]|H]|H].
  - exists c. split; [apply Hm; lia | apply N.eqb_refl].
  - exists c. split; [apply Hm; lia | apply N.eqb_refl].
  - exists (c + 32)%N. split; [apply Hm; lia|].
    apply N.eqb_eq. unfold canonicalize.
    destruct (N.leb_spec 97 (c + 32)), (N.leb_spec (c + 32) 122),
             (N.leb_spec 97 c), (N.leb_spec c 122); simpl; lia.
  - exists c. split; [apply Hm; lia | apply N.eqb_refl].
Qed.

End MatcherFacts.

(** X16.  When the text holds the word workflow_id, in letters of any
    case, then optional white space, an equals sign, optional white
    space, a quote of either kind, a non-empty run of hexadecimal digits
    and hyphens and a quote of either kind, and no letter w comes before
    that word, [extractWorkflowId] returns exactly that run. *)
Theorem extractWorkflowId_finds
        (pre word ws1 ws2 id post : jsstring) (q1 q2 : N) :
  Forall (fun c => RegExp.canonicalize c <> 87%N) pre ->
  List.map RegExp.canonicalize word
  = List.map RegExp.canonicalize (lit "workflow_id") ->
  Forall (fun c => isWhiteSpace c = true) ws1 ->
  Forall (fun c => isWhiteSpace c = true) ws2 ->
  (q1 = 34%N \/ q1 = 39%N) -> (q2 = 34%N \/ q2 = 39%N) ->
  id <> [] -> Forall (fun c => isHexOrHyphen c = true) id ->
  extractWorkflowId
    (pre ++ word ++ ws1 ++ 61%N :: ws2 ++ q1 :: id ++ q2 :: post)
  = Some id.
Proof.
  intros Hpre Hword Hws1 Hws2 Hq1 Hq2 Hid Hhex.
  assert (Hmatch :
            RegExp.exec_at workflowIdPattern
              (word ++ ws1 ++ 61%N :: ws2 ++ q1 :: id ++ q2 :: post)
              None (fun _ cap => Some cap)
            = Some (Some id)).
  { assert (Hquote : forall q, q = 34%N \/ q = 39%N ->
              existsb (fun a => (RegExp.canonicalize a =? RegExp.canonicalize q)%N)
                      [34%N; 39%N] = true)
      by (intros q [->| ->]; reflexivity).
    unfold workflowIdPattern. cbv zeta.
    rewrite MatcherFacts.exec_seq, MatcherFacts.exec_literal by exact Hword.
    rewrite MatcherFacts.exec_seq.
    apply MatcherFacts.exec_star_run; [exact Hws1 | reflexivity|].
    rewrite MatcherFacts.exec_seq, MatcherFacts.exec_chr by reflexivity.
    rewrite MatcherFacts.exec_seq.
    apply MatcherFacts.exec_star_run; [exact Hws2 | |].
    { destruct Hq1 as [->| ->]; reflexivity. }
    rewrite MatcherFacts.exec_seq, MatcherFacts.exec_class by auto.
    rewrite MatcherFacts.exec_seq.
    destruct id as [|c run]; [now destruct Hid|].
    inversion Hhex as [|? ? Hc Hrun]; subst.
    change (c :: run ++ q2 :: post) with ((c :: run) ++ q2 :: post).
    apply MatcherFacts.exec_group_run.
    - apply MatcherFacts.hex_in_class, Hc.
    - revert Hrun. apply Forall_impl. exact MatcherFacts.hex_in_class.
    - destruct Hq2 as [->| ->]; reflexivity.
    - now rewrite MatcherFacts.exec_class by auto. }
  unfold extractWorkflowId.
  assert (Hsearch :
            RegExp.search workflowIdPattern
              (pre ++ word ++ ws1 ++ 61%N :: ws2 ++ q1 :: id ++ q2 :: post)
            = Some (Some id)).
  { induction Hpre as [|c pre Hc _ IH].
    - cbn [app]. rewrite MatcherFacts.search_unfold, Hmatch. reflexivity.
    - cbn [app]. rewrite MatcherFacts.search_unfold.
      unfold workflowIdPattern at 1. cbv zeta.
      rewrite MatcherFacts.exec_seq.
      change (RegExp.literal_i (lit "workflow_id"))
        with (RegExp.Seq (RegExp.chr_i 119) (RegExp.literal_i (lit "orkflow_id"))).
      rewrite MatcherFacts.exec_seq, MatcherFacts.exec_chr_fails by exact Hc.
      exact IH. }
  rewrite Hsearch. destruct id; [now destruct Hid | reflexivity].
Qed.

Lemma extractWorkflowId_finds_witness :
  extractWorkflowId
    (lit "# job" ++ [10%N] ++ lit "WorkFlow_Id" ++ lit "  " ++ 61%N :: [9%N]
         ++ 39%N :: lit "12ab-CD" ++ 34%N :: lit " # end")
  = Some (lit "12ab-CD").
Proof.
  change (lit "# job" ++ [10%N] ++ lit "WorkFlow_Id" ++ lit "  " ++ 61%N :: [9%N]
              ++ 39%N :: lit "12ab-CD" ++ 34%N :: lit " # end")
    with ((lit "# job" ++ [10%N]) ++ lit "WorkFlow_Id" ++ lit "  " ++ 61%N :: [9%N]
              ++ 39%N :: lit "12ab-CD" ++ 34%N :: lit " # end").
  apply extractWorkflowId_finds;
    try (vm_compute; repeat constructor; discriminate);
    try (vm_compute; reflexivity);
    try (vm_compute; auto; fail);
    try discriminate.
Defined.

(** ** The execution form *)

Module RunViewFacts.
Import RunView.

Section ReadingFacts.

Variable numberTruthy : jsstring -> bool.
Variable textOf : JSON.value -> option jsstring.

Local Abbreviation truthyV := (truthyValue numberTruthy).

Lemma orValue_truthy (a : option JSON.value) (b : JSON.value) :
  truthyV b = true -> truthyV (orValue numberTruthy a b) = true.
Proof.
  intros Hb. unfold orValue. destruct a as [v|]; [|exact Hb].
  destruct (truthyV v) eqn:Hv; assumption.
Qed.

Lemma scanGroups_count (current : list jsstring) (groups : list JSON.value) :
  forall index,
    length (fst (scanGroups numberTruthy current index groups))
    + length (snd (scanGroups numberTruthy current index groups))
    = length groups.
Proof.
  induction groups as [|group rest IH]; intros index; [reflexivity|].
  cbn [scanGroups]. specialize (IH (S index)).
  destruct (scanGroups numberTruthy current (S index) rest) as [cg fixed].
  cbn [fst snd] in IH.
  destruct (List.filter _ _) as [|first others].
  - rewrite orValue_truthy by reflexivity. cbn [fst snd length]. lia.
  - cbn [fst snd length]. lia.
Qed.

(** X17.  [buildExecutionConfigFromRunView] puts every entry of
    [groupsAndContexts] in exactly one of its two lists: the context
    groups and the fixed lists together are as many as the entries, none
    is dropped. *)
Theorem buildExecutionConfigFromRunView_partition
        (paramData : JSON.value) (currentParamsLists : list jsstring) :
  let config := buildExecutionConfigFromRunView numberTruthy textOf paramData
                                                currentParamsLists in
  length (contextGroups config) + length (fixedParamsLists config)
  = length (arrayItems (get (Some paramData) (lit "groupsAndContexts"))).
Proof.
  unfold buildExecutionConfigFromRunView.
  pose proof (scanGroups_count currentParamsLists
                (arrayItems (get (Some paramData) (lit "groupsAndContexts"))) 0)
    as H.
  destruct (scanGroups _ _ _ _) as [cg fixed]. exact H.
Qed.

Lemma selected_well_formed (current : list jsstring) (name first : JSON.value)
      (others : list JSON.value) :
  Forall (fun ctx => truthyV ctx = true) (first :: others) ->
  well_formed_group numberTruthy current
    (mkContextGroup name (first :: others)
       (orValue numberTruthy (List.find (has current) (first :: others)) first)).
Proof.
  intros Htruthy. unfold well_formed_group. cbn [contexts selected].
  split; [discriminate|]. split; [exact Htruthy|].
  destruct (List.find (has current) (first :: others)) as [found|] eqn:Ef.
  - apply find_some in Ef. destruct Ef as [Hin Hhas].
    rewrite Forall_forall in Htruthy.
    unfold orValue. rewrite (Htruthy found Hin). auto.
  - unfold orValue. split; [left; reflexivity|].
    intros Hex. apply existsb_exists in Hex. destruct Hex as [ctx [Hin Hhas]].
    rewrite (find_none _ _ Ef ctx Hin) in Hhas. discriminate Hhas.
Qed.

Lemma scanGroups_well_formed (current : list jsstring) (groups : list JSON.value) :
  forall index,
    Forall (well_formed_group numberTruthy current)
           (fst (scanGroups numberTruthy current index groups)).
Proof.
  induction groups as [|group rest IH]; intros index; [constructor|].
  cbn [scanGroups]. specialize (IH (S index)).
  destruct (scanGroups numberTruthy current (S index) rest) as [cg fixed].
  cbn [fst] in IH.
  destruct (List.filter _ _) as [|first others] eqn:Ef.
  - now destruct (truthyV _).
  - cbn [fst]. constructor; [|exact IH].
    apply selected_well_formed. rewrite <- Ef.
    apply Forall_forall. intros ctx Hin. apply filter_In in Hin. tauto.
Qed.

(** X18.  In every context group [buildExecutionConfigFromRunView]
    returns, the contexts are not empty and all truthy, the selected
    context is one of them, and it is one of the current parameter lists
    whenever any context of the group is. *)
Theorem buildExecutionConfigFromRunView_selected
        (paramData : JSON.value) (currentParamsLists : list jsstring) :
  Forall (fun g =>
            contexts g <> []
            /\ Forall (fun ctx => truthyValue numberTruthy ctx = true) (contexts g)
            /\ In (selected g) (contexts g)
            /\ (existsb (has currentParamsLists) (contexts g) = true ->
                has currentParamsLists (selected g) = true))
         (contextGroups
            (buildExecutionConfigFromRunView numberTruthy textOf paramData
                                             currentParamsLists)).
Proof.
  unfold buildExecutionConfigFromRunView.
  pose proof (scanGroups_well_formed currentParamsLists
                (arrayItems (get (Some paramData) (lit "groupsAndContexts"))) 0)
    as H.
  destruct (scanGroups _ _ _ _) as [cg fixed]. exact H.
Qed.


Local Abbreviation proto := (lit "__proto__").
Local Abbreviation key_dec := (list_eq_dec N.eq_dec).






(** *** The entries of an object *)










End ReadingFacts.

Lemma buildExecutionConfigFromRunView_selected_witness :
  contextGroups
    (buildExecutionConfigFromRunView (fun _ => true) (fun _ => None)
                                     sample_run_view [lit "prod"])
  = [mkContextGroup (JSON.Str (lit "env"))
                    [JSON.Str (lit "dev"); JSON.Str (lit "prod")]
                    (JSON.Str (lit "prod"))]
  /\ Forall (fun g =>
               contexts g <> []
               /\ Forall (fun ctx => truthyValue (fun _ => true) ctx = true)
                         (contexts g)
               /\ In (selected g) (contexts g)
               /\ (existsb (has [lit "prod"]) (contexts g) = true ->
                   has [lit "prod"] (selected g) = true))
            (contextGroups
               (buildExecutionConfigFromRunView (fun _ => true) (fun _ => None)
                                                sample_run_view [lit "prod"])).
Proof.
  split; [vm_compute; reflexivity|].
  apply (@buildExecutionConfigFromRunView_selected
           (fun _ => true) (fun _ => None) sample_run_view [lit "prod"]).
Defined.



End RunViewFacts.

(** ** The compiled file and the errors of a child process *)

Module FilesFacts.
Import RunView.

Lemma endsWith_spec (s p : jsstring) :
  endsWith s p = true <-> exists r, s = r ++ p.
Proof.
  unfold endsWith. rewrite startsWith_spec. split.
  - intros [r Hr]. exists (rev r).
    rewrite <- (rev_involutive s), Hr, rev_app_distr, rev_involutive.
    reflexivity.
  - intros [r ->]. exists (rev r). apply rev_app_distr.
Qed.

Lemma replacePySuffix_py (stem : jsstring) :
  replacePySuffix (stem ++ lit ".py") = stem ++ lit ".json".
Proof.
  unfold replacePySuffix.
  replace (length (stem ++ lit ".py") - 3) with (length stem + 0)
    by (rewrite length_app; cbn; lia).
  rewrite skipn_app, firstn_app_2.
  replace (length stem + 0 - length stem) with 0 by lia.
  rewrite skipn_all2 by lia. cbn [firstn skipn app].
  rewrite app_nil_r. reflexivity.
Qed.

Lemma py_is_not_json (stem : jsstring) :
  endsWith (stem ++ lit ".py") (lit ".json") = false.
Proof. unfold endsWith. rewrite rev_app_distr. reflexivity. Qed.

Lemma pipelineJsonPath_py (stem : jsstring) :
  pipelineJsonPath (stem ++ lit ".py") = stem ++ lit ".json".
Proof.
  unfold pipelineJsonPath. rewrite or_else_nil, py_is_not_json.
  rewrite (proj2 (endsWith_spec (stem ++ lit ".py") (lit ".py")))
    by (now exists stem).
  apply replacePySuffix_py.
Qed.

(** The three cases of the companion path. *)
Lemma pipelineJsonPath_cases (filePath : jsstring) :
  exists stem,
    (filePath = stem ++ lit ".json"
     \/ filePath = stem ++ lit ".py"
     \/ (filePath = stem
         /\ endsWith filePath (lit ".json") = false
         /\ endsWith filePath (lit ".py") = false))
    /\ pipelineJsonPath filePath = stem ++ lit ".json".
Proof.
  unfold pipelineJsonPath. rewrite or_else_nil.
  destruct (endsWith filePath (lit ".json")) eqn:Ej.
  - apply endsWith_spec in Ej. destruct Ej as [stem ->]. exists stem. auto.
  - destruct (endsWith filePath (lit ".py")) eqn:Ep.
    + apply endsWith_spec in Ep. destruct Ep as [stem ->]. exists stem.
      split; [auto | apply replacePySuffix_py].
    + exists filePath. auto 10.
Qed.

(** X20.  [getCurrentPipelineParamsLists] reads, for a source file
    [stem.py], the same file as for [stem.json]: both calls give the same
    lists, whatever the files hold. *)
Theorem getCurrentPipelineParamsLists_py_as_json (fs : Files) (stem : jsstring) :
  getCurrentPipelineParamsLists fs (stem ++ lit ".py")
  = getCurrentPipelineParamsLists fs (stem ++ lit ".json").
Proof.
  unfold getCurrentPipelineParamsLists.
  rewrite pipelineJsonPath_py.
  replace (pipelineJsonPath (stem ++ lit ".json")) with (stem ++ lit ".json");
    [reflexivity|].
  unfold pipelineJsonPath. rewrite or_else_nil.
  now rewrite (proj2 (endsWith_spec (stem ++ lit ".json") (lit ".json")))
    by (now exists stem).
Qed.

(** X21.  When [getCurrentPipelineParamsLists] returns a non-empty array
    for a path, the companion file of that path exists, can be read and
    holds JSON text, and the strings returned are the string elements of
    its [settings.global.parametersLists].  The companion is the path
    itself when it ends in [.json], the path with its final [.py] replaced
    by [.json] when it ends in [.py], and the path with [.json] appended
    otherwise.  So a missing, unreadable or malformed companion gives the
    empty array. *)
Theorem getCurrentPipelineParamsLists_source (fs : Files) (filePath : jsstring) :
  getCurrentPipelineParamsLists fs filePath <> [] ->
  exists stem content data,
    (filePath = stem ++ lit ".json"
     \/ filePath = stem ++ lit ".py"
     \/ (filePath = stem
         /\ endsWith filePath (lit ".json") = false
         /\ endsWith filePath (lit ".py") = false))
    /\ existsSync fs (stem ++ lit ".json") = true
    /\ readFileSync fs (stem ++ lit ".json") = Some content
    /\ JSON.parse content = Return data
    /\ (forall p,
           In p (getCurrentPipelineParamsLists fs filePath)
           <-> In (JSON.Str p)
                  (arrayItems
                     (get (get (get (Some data) (lit "settings")) (lit "global"))
                          (lit "parametersLists")))).
Proof.
  intros H.
  destruct (pipelineJsonPath_cases filePath) as [stem [Hstem Hpath]].
  unfold getCurrentPipelineParamsLists in *. rewrite Hpath in *.
  destruct (existsSync fs (stem ++ lit ".json")) eqn:Ee;
    [|now contradiction H].
  cbn [negb] in *.
  destruct (readFileSync fs (stem ++ lit ".json")) as [content|] eqn:Er;
    [|now contradiction H].
  destruct (JSON.parse content) as [data|e] eqn:Ep; [|now contradiction H].
  exists stem, content, data. repeat split; auto.
  - intros Hp. apply in_flat_map in Hp. destruct Hp as [item [Hin Hp]].
    destruct item; try (now destruct Hp).
    destruct Hp as [->|[]]. exact Hin.
  - intros Hp. apply in_flat_map. exists (JSON.Str p). split; [exact Hp|].
    now left.
Qed.

Lemma getCurrentPipelineParamsLists_source_witness :
  getCurrentPipelineParamsLists sample_files (lit "/w/flow.py")
  = [lit "dev"; lit "prod"]
  /\ exists stem content data,
       (lit "/w/flow.py" = stem ++ lit ".json"
        \/ lit "/w/flow.py" = stem ++ lit ".py"
        \/ (lit "/w/flow.py" = stem
            /\ endsWith (lit "/w/flow.py") (lit ".json") = false
            /\ endsWith (lit "/w/flow.py") (lit ".py") = false))
       /\ existsSync sample_files (stem ++ lit ".json") = true
       /\ readFileSync sample_files (stem ++ lit ".json") = Some content
       /\ JSON.parse content = Return data
       /\ (forall p,
              In p (getCurrentPipelineParamsLists sample_files (lit "/w/flow.py"))
              <-> In (JSON.Str p)
                     (arrayItems
                        (get (get (get (Some data) (lit "settings")) (lit "global"))
                             (lit "parametersLists")))).
Proof.
  split; [vm_compute; reflexivity|].
  apply (@getCurrentPipelineParamsLists_source sample_files (lit "/w/flow.py")).
  vm_compute. discriminate.
Defined.






End FilesFacts.
